(** * Relocation of animals across Australian states (australia.py)

    A shallow embedding of [FictionalAnimal] and [relocate_animals], and
    the properties of the greedy placement that the specification states.

    Python objects are shared and mutated in place, so the animals live in
    a store and the list handed to [relocate_animals] is a list of
    references into it: the same object may be listed twice, and a lookup
    by name reads the object as it is at that moment. *)

From Stdlib Require Import Ascii.
From stdpp Require Import gmap strings list.

Local Open Scope string_scope.
Local Open Scope list_scope.

(** ** Outcomes

    The only exception the placement code can raise is the [KeyError] of a
    subscript on the adjacency dict. *)

Inductive result (A : Type) : Type :=
| Ok (a : A)
| KeyError (key : string).

Arguments Ok {A} a.
Arguments KeyError {A} key.

#[global] Instance result_eq_dec {A} `{EqDecision A} : EqDecision (result A).
Proof. solve_decision. Defined.

(** Sequencing: an exception ends the computation. *)
#[global] Instance result_bind : MBind result := λ A B k m,
  match m with
  | Ok a => k a
  | KeyError key => KeyError key
  end.

(** ** The class [FictionalAnimal] *)

Record FictionalAnimal : Type := mkAnimal {
  name : string;
  habitat : string;
  threat : string;
  state : string
}.

#[global] Instance FictionalAnimal_eq_dec : EqDecision FictionalAnimal.
Proof. solve_decision. Defined.

(** [__init__]: a new animal starts in the capital. *)
Definition init (name habitat threat : string) : FictionalAnimal :=
  mkAnimal name habitat threat "ACT".

Definition get_state (self : FictionalAnimal) : string := state self.

(** The assignment [self.state = st]. *)
Definition with_state (self : FictionalAnimal) (st : string) : FictionalAnimal :=
  mkAnimal (name self) (habitat self) (threat self) st.

(** The objects of the program: a reference is a position in the store. *)
Abbreviation store := (list FictionalAnimal).

(** The animals a list of references denotes, in list order. *)
Definition objects (σ : store) (animals : list nat) : list FictionalAnimal :=
  omap (λ r, σ !! r) animals.

(** [next((a for a in animals if a.name == nm), None)] *)
Definition next_named (σ : store) (animals : list nat) (nm : string)
  : option FictionalAnimal :=
  head (filter (λ a, name a = nm) (objects σ animals)).

(** The fixed order in which states are tried (a local of
    [relocate_animals]). *)
Definition state_order : list string :=
  ["NSW"; "QLD"; "VIC"; "TAS"; "SA"; "NT"; "WA"].

(** ** The code over an arbitrary binding of the global [ADJACENT_STATES]

    The module-level name is looked up each time it is used; the functions
    are embedded over any dict bound to it, and specialised below to the
    one the module defines. *)

Section Graph.

Variable graph : gmap string (list string).

(** [state in ADJACENT_STATES.keys()] *)
Definition is_key (st : string) : bool := bool_decide (is_Some (graph !! st)).

Definition set_state (self : FictionalAnimal) (st : string) : FictionalAnimal :=
  if is_key st || bool_decide (st = "ACT") then with_state self st else self.

(** Check (1): [threat_animal and threat_animal.get_state() == state]. *)
Definition same_state (threat_animal : option FictionalAnimal) (st : string) : bool :=
  match threat_animal with
  | Some t => bool_decide (get_state t = st)
  | None => false
  end.

(** Check (2): [threat_animal and threat_animal.get_state() in
    ADJACENT_STATES.get(state, [])]. *)
Definition next_to_threat (threat_animal : option FictionalAnimal) (st : string) : bool :=
  match threat_animal with
  | Some t => bool_decide (get_state t ∈ default [] (graph !! st))
  | None => false
  end.

(** The body of the loop of check (3) for one [adj_state]: true when the
    loop sets [safe = False] and breaks there. *)
Definition threatens (σ : store) (animals : list nat) (occupied : gmap string string)
    (animal : FictionalAnimal) (adj_state : string) : bool :=
  match occupied !! adj_state with
  | Some adj_animal_name =>
      match next_named σ animals adj_animal_name with
      | Some adj_animal => bool_decide (threat adj_animal = name animal)
      | None => false
      end
  | None => false
  end.

(** Check (3): [for adj_state in ADJACENT_STATES[state]: ...]; the
    subscript raises [KeyError] when [state] is not a key. *)
Definition is_threat_nearby (σ : store) (animals : list nat)
    (occupied : gmap string string) (animal : FictionalAnimal) (st : string)
  : result bool :=
  match graph !! st with
  | Some adjacent => Ok (existsb (threatens σ animals occupied animal) adjacent)
  | None => KeyError st
  end.

(** The value of [safe] after the three checks for one candidate. *)
Definition is_safe (σ : store) (animals : list nat) (occupied : gmap string string)
    (animal : FictionalAnimal) (st : string) : result bool :=
  let threat_animal := next_named σ animals (threat animal) in
  if same_state threat_animal st then Ok false
  else if next_to_threat threat_animal st then Ok false
  else nearby ← is_threat_nearby σ animals occupied animal st ; Ok (negb nearby).

(** The loop [for state in state_order]: the state the animal is placed
    in, or [None] when the loop ends with [placed = False]. The store does
    not change while the loop runs. *)
Fixpoint try_states (σ : store) (animals : list nat) (occupied : gmap string string)
    (animal : FictionalAnimal) (order : list string) : result (option string) :=
  match order with
  | [] => Ok None
  | st :: rest =>
      if bool_decide (is_Some (occupied !! st))
      then try_states σ animals occupied animal rest
      else
        safe ← is_safe σ animals occupied animal st ;
        if safe : bool then Ok (Some st)
        else try_states σ animals occupied animal rest
  end.

(** One iteration of [for animal in animals], for the animal at reference
    [r]. A reference outside the store denotes no object of the program:
    the iteration for it is taken to do nothing. *)
Definition relocate_one (animals : list nat) (σ : store)
    (occupied : gmap string string) (r : nat)
  : result (store * gmap string string) :=
  match σ !! r with
  | Some animal =>
      placed ← try_states σ animals occupied animal state_order ;
      match placed with
      | Some st =>
          Ok (alter (λ a, set_state a st) r σ, <[st := name animal]> occupied)
      | None =>
          Ok (alter (λ a, set_state a "ACT") r σ, occupied)
      end
  | None => Ok (σ, occupied)
  end.

(** The iterations for the references [todo], the rest of [animals]. *)
Fixpoint relocate_loop (animals : list nat) (todo : list nat) (σ : store)
    (occupied : gmap string string) : result (store * gmap string string) :=
  match todo with
  | [] => Ok (σ, occupied)
  | r :: rest =>
      '(σ', occupied') ← relocate_one animals σ occupied r ;
      relocate_loop animals rest σ' occupied'
  end.

Definition relocate_animals_in (σ : store) (animals : list nat)
  : result (store * gmap string string) :=
  relocate_loop animals animals σ ∅.

End Graph.

(** ** The module's binding of [ADJACENT_STATES] *)

Definition ADJACENT_STATES : gmap string (list string) :=
  list_to_map
    [ ("NSW", ["VIC"; "SA"; "QLD"]);
      ("QLD", ["NT"; "SA"; "NSW"]);
      ("VIC", ["SA"; "NSW"]);
      ("TAS", []);
      ("SA", ["WA"; "NT"; "QLD"; "NSW"; "VIC"]);
      ("NT", ["WA"; "SA"; "QLD"]);
      ("WA", ["SA"; "NT"]) ].

Definition relocate_animals (σ : store) (animals : list nat)
  : result (store * gmap string string) :=
  relocate_animals_in ADJACENT_STATES σ animals.

(** The states of the listed animals after a run, or [None] on an
    exception. *)
Definition final_states (graph : gmap string (list string)) (σ : store)
    (animals : list nat) : option (list string) :=
  match relocate_animals_in graph σ animals with
  | Ok (σ', _) => Some (get_state <$> objects σ' animals)
  | KeyError _ => None
  end.

(** A candidate that the loop over the states passes over: it is taken, or
    the checks leave [safe = False]. *)
Definition passed_over (graph : gmap string (list string)) (σ : store)
    (animals : list nat) (occupied : gmap string string)
    (animal : FictionalAnimal) (st : string) : Prop :=
  is_Some (occupied !! st) ∨ is_safe graph σ animals occupied animal st = Ok false.

#[global] Instance passed_over_dec graph σ animals occupied animal st :
  Decision (passed_over graph σ animals occupied animal st).
Proof. unfold passed_over. apply _. Defined.

(** Two objects that differ at most in their habitat. *)
Definition same_but_habitat (a b : FictionalAnimal) : Prop :=
  name a = name b ∧ threat a = threat b ∧ state a = state b.

#[global] Instance same_but_habitat_dec a b : Decision (same_but_habitat a b).
Proof. unfold same_but_habitat. apply _. Defined.

(** ** The invariant of the loop over the animals *)

(** An animal is settled when it is in the capital, or in one of the states
    of [state_order] and the table has its name there. *)
Definition settled (occupied : gmap string string) (a : FictionalAnimal) : Prop :=
  get_state a = "ACT" ∨
  (get_state a ∈ state_order ∧ occupied !! get_state a = Some (name a)).

#[global] Instance settled_dec occupied a : Decision (settled occupied a).
Proof. unfold settled. apply _. Defined.

(** The invariant of the loop over the animals, for the references [done]
    whose iteration is over. *)
Record processed (done : list nat) (σ : store)
    (occupied : gmap string string) : Prop := {
  processed_settled :
    ∀ r a, r ∈ done → σ !! r = Some a → settled occupied a;
  processed_distinct :
    ∀ r1 r2 a1 a2,
      r1 ∈ done → r2 ∈ done → σ !! r1 = Some a1 → σ !! r2 = Some a2 →
      get_state a1 = get_state a2 → get_state a1 ≠ "ACT" → r1 = r2;
  processed_keys :
    ∀ st, is_Some (occupied !! st) → st ∈ state_order;
  processed_sound :
    NoDup done →
    ∀ st nm, occupied !! st = Some nm →
      ∃ r a, r ∈ done ∧ σ !! r = Some a ∧ name a = nm ∧ get_state a = st
}.

(** ** The iteration as the specification words it *)

(** Step 1 of the specification sets the location to 'ACT' before the
    candidates are tried; the rest is the iteration of the code. *)
Definition relocate_one_reset_first (animals : list nat) (σ : store)
    (occupied : gmap string string) (r : nat)
  : result (store * gmap string string) :=
  relocate_one ADJACENT_STATES animals
    (alter (λ a, set_state ADJACENT_STATES a "ACT") r σ) occupied r.

(** ** Outcomes of two runs *)

(** Two outcomes that agree: the same exception, or stores that differ at
    most in habitats together with the same table. *)
Definition same_outcome (x y : result (store * gmap string string)) : Prop :=
  match x, y with
  | Ok (σ1, occupied1), Ok (σ2, occupied2) =>
      Forall2 same_but_habitat σ1 σ2 ∧ occupied1 = occupied2
  | KeyError key1, KeyError key2 => key1 = key2
  | _, _ => False
  end.

(** ** The rest of the module *)

(** [ADJACENT_STATES.get(st, [])] *)
Definition adjacent_to (st : string) : list string :=
  default [] (ADJACENT_STATES !! st).

(** [sum(1 for a in animals if a.get_state() != 'ACT')], the count that
    [main] prints after the run. *)
Definition relocated_count (σ : store) (animals : list nat) : nat :=
  length (filter (λ a, get_state a ≠ "ACT") (objects σ animals)).

(** A state in which the checks constrain nothing: the threat of the animal
    names no listed animal, and no listed animal names it as a threat. *)
Definition unconstrained (σ : store) (animals : list nat)
    (animal : FictionalAnimal) : Prop :=
  ∀ b, b ∈ objects σ animals → threat animal ≠ name b ∧ threat b ≠ name animal.

(** The first state of the order that the table does not have. *)
Definition first_free (occupied : gmap string string) : option string :=
  head (filter (λ st, occupied !! st = None) state_order).

(** *** Reading the dataset

    A character of a Python [str] is modelled by an [ascii], its code
    point; text with code points above 255 is outside the model. The lines
    are the strings that iterating over the open file yields, each with its
    newline. *)

(** The characters below 256 that [str.isspace] holds of, which are the
    ones [str.strip()] removes: tab to carriage return, the four
    separators, space, next line, no-break space. *)
Definition isspace (c : ascii) : bool :=
  bool_decide (nat_of_ascii c ∈ [9; 10; 11; 12; 13; 28; 29; 30; 31; 32; 133; 160]).

Fixpoint lstrip (s : string) : string :=
  match s with
  | EmptyString => EmptyString
  | String c s' => if isspace c then lstrip s' else s
  end.

Fixpoint rstrip (s : string) : string :=
  match s with
  | EmptyString => EmptyString
  | String c s' =>
      match rstrip s' with
      | EmptyString => if isspace c then EmptyString else String c EmptyString
      | kept => String c kept
      end
  end.

(** [s.strip()] *)
Definition strip (s : string) : string := rstrip (lstrip s).

(** [s.split(sep)] for a separator of one character: there is always at
    least one field. *)
Fixpoint split (sep : ascii) (s : string) : list string :=
  match s with
  | EmptyString => [EmptyString]
  | String c s' =>
      if bool_decide (c = sep) then EmptyString :: split sep s'
      else
        match split sep s' with
        | field :: fields => String c field :: fields
        | [] => [String c EmptyString]
        end
  end.

(** The body of the loop of [load_dataset] for one line: the animal that
    is appended, if one is. *)
Definition load_line (line : string) : option FictionalAnimal :=
  match split ","%char (strip line) with
  | [name; habitat; threat] => Some (init name habitat threat)
  | _ => None
  end.

(** [load_dataset], given the lines of animals.csv, or [None] when opening
    the file raises [FileNotFoundError]. *)
Definition load_dataset (file : option (list string)) : list FictionalAnimal :=
  match file with
  | Some lines => omap load_line lines
  | None => []
  end.

(** [sep.join(fields)], which undoes [split]. *)
Fixpoint join (sep : ascii) (fields : list string) : string :=
  match fields with
  | [] => EmptyString
  | [field] => field
  | field :: fields => field +:+ String sep (join sep fields)
  end.

(** What opening and reading animals.csv comes to. Either the file is
    read, or [open] raises [FileNotFoundError]: these are the two cases of
    the argument of [load_dataset] above. Or else [open] or the reading of
    a line raises another exception (a [UnicodeDecodeError] for bytes that
    do not decode, a [PermissionError]), which [load_dataset] does not
    catch. *)
Inductive reading : Type :=
| Read (file : option (list string))
| ReadError (exception : string).

(** How [main] ends: it returns after printing, or an exception leaves
    it. *)
Inductive outcome (A : Type) : Type :=
| Returns (a : A)
| Raises (exception : string).

Arguments Returns {A} a.
Arguments Raises {A} exception.

(** [main], from reading the file to the summary. An exception that
    [load_dataset] lets through leaves [main], which catches nothing.
    Otherwise the animals are the loaded objects, each listed once; the
    value is the count of relocated animals that is printed, and the name
    and state of each animal in the order of the summary lines. *)
Definition main_run (file : reading) : outcome (nat * list (string * string)) :=
  match file with
  | ReadError exception => Raises exception
  | Read file =>
      let σ := load_dataset file in
      let animals := seq 0 (length σ) in
      match relocate_animals σ animals with
      | Ok (σ', _) =>
          Returns (relocated_count σ' animals,
                   (λ a, (name a, get_state a)) <$> objects σ' animals)
      | KeyError _ => Raises "KeyError"
      end
  end.

(** The line feed that ends a line of the file. *)
Definition newline : string := String "010"%char EmptyString.

(** [__str__]: the name, then the habitat, the threat and the state, each
    on a line of its own after its label. *)
Definition to_str (self : FictionalAnimal) : string :=
  name self +:+ newline +:+
  "   Habitat : " +:+ habitat self +:+ newline +:+
  "   Threat  : " +:+ threat self +:+ newline +:+
  "   State   : " +:+ state self.

(** The number of occurrences of a character. *)
Fixpoint count_char (c : ascii) (s : string) : nat :=
  match s with
  | EmptyString => 0
  | String c' s' => (if bool_decide (c' = c) then 1 else 0) + count_char c s'
  end.

(** No field of the animal has a line feed. *)
Definition no_line_feed (a : FictionalAnimal) : Prop :=
  count_char "010"%char (name a) = 0 ∧
  count_char "010"%char (habitat a) = 0 ∧
  count_char "010"%char (threat a) = 0 ∧
  count_char "010"%char (state a) = 0.

#[global] Instance no_line_feed_dec a : Decision (no_line_feed a).
Proof. unfold no_line_feed. apply _. Defined.

(** The last character, if there is one. *)
Fixpoint last_char (s : string) : option ascii :=
  match s with
  | EmptyString => None
  | String c EmptyString => Some c
  | String _ s' => last_char s'
  end.

Definition first_char (s : string) : option ascii :=
  match s with
  | EmptyString => None
  | String c _ => Some c
  end.

(** No processed animal that is placed is next to its threat, when that
    is another processed animal that is placed. *)
Definition apart (done : list nat) (σ : store) : Prop :=
  ∀ rA rB A B,
    rA ∈ done → rB ∈ done → rA ≠ rB →
    σ !! rA = Some A → σ !! rB = Some B →
    threat A = name B →
    get_state A ≠ "ACT" → get_state B ≠ "ACT" →
    get_state B ∉ adjacent_to (get_state A) ∧
    get_state A ∉ adjacent_to (get_state B).

(** No listed animal has a listed animal as its threat. *)
Definition no_threats (σ : store) (animals : list nat) : Prop :=
  ∀ a b, a ∈ objects σ animals → b ∈ objects σ animals → threat a ≠ name b.

(** The animals that are only in the added part [more] of a list are in
    'ACT', and the names in the table are names of animals of the first
    part. *)
Definition added_idle (animals more : list nat) (σ : store)
    (occupied : gmap string string) : Prop :=
  (∀ r a, r ∈ more → r ∉ animals → σ !! r = Some a → get_state a = "ACT") ∧
  (∀ st nm, occupied !! st = Some nm → nm ∈ name <$> objects σ animals).

(** The calls [a.set_state(s)] for the strings of a list, in order. *)
Definition set_states (a : FictionalAnimal) (ss : list string) : FictionalAnimal :=
  foldl (set_state ADJACENT_STATES) a ss.

(** A string that [set_state] takes. *)
Definition valid_state (st : string) : Prop :=
  st ∈ dom ADJACENT_STATES ∨ st = "ACT".

#[global] Instance valid_state_dec st : Decision (valid_state st).
Proof. unfold valid_state. apply _. Defined.

(** Closed side conditions are settled by evaluation. *)
Ltac by_evaluation := refine (bool_decide_unpack _ _); vm_compute; exact I.

(** * Properties *)

(** ** The states and the shipped graph *)

Lemma state_order_keys : Forall (λ st, is_Some (ADJACENT_STATES !! st)) state_order.
Proof. refine (bool_decide_unpack _ _). vm_compute. exact I. Qed.

Lemma state_order_not_ACT : "ACT" ∉ state_order.
Proof. refine (bool_decide_unpack _ _). vm_compute. exact I. Qed.

Lemma ACT_not_adjacent : map_Forall (λ _ adjacent, "ACT" ∉ adjacent) ADJACENT_STATES.
Proof. refine (bool_decide_unpack _ _). vm_compute. exact I. Qed.

Lemma ACT_not_key : ADJACENT_STATES !! "ACT" = None.
Proof. reflexivity. Qed.

Lemma key_in_state_order st :
  is_Some (ADJACENT_STATES !! st) → st ∈ state_order.
Proof.
  intros [adjacent Hst].
  assert (Hall : map_Forall (λ k _, k ∈ state_order) ADJACENT_STATES).
  { refine (bool_decide_unpack _ _). vm_compute. exact I. }
  exact (Hall _ _ Hst).
Qed.

(** ** [set_state] *)

Section SetState.

Variable graph : gmap string (list string).

Lemma set_state_name a st : name (set_state graph a st) = name a.
Proof. unfold set_state. by destruct (_ || _). Qed.

Lemma set_state_threat a st : threat (set_state graph a st) = threat a.
Proof. unfold set_state. by destruct (_ || _). Qed.

Lemma set_state_habitat a st : habitat (set_state graph a st) = habitat a.
Proof. unfold set_state. by destruct (_ || _). Qed.

Lemma set_state_ACT a : set_state graph a "ACT" = with_state a "ACT".
Proof.
  unfold set_state. rewrite (bool_decide_eq_true_2 ("ACT" = "ACT")); [|done].
  by rewrite orb_true_r.
Qed.

Lemma set_state_key a st :
  is_Some (graph !! st) → set_state graph a st = with_state a st.
Proof.
  intros Hkey. unfold set_state, is_key. by rewrite bool_decide_eq_true_2.
Qed.

Lemma set_state_other a st :
  graph !! st = None → st ≠ "ACT" → set_state graph a st = a.
Proof.
  intros Hno Hne. unfold set_state, is_key.
  rewrite bool_decide_eq_false_2; [|rewrite Hno; by intros [??]].
  by rewrite bool_decide_eq_false_2.
Qed.

End SetState.

(** ** One candidate, and the loop over the candidates *)

Section Candidates.

Variable graph : gmap string (list string).
Variable σ : store.
Variable animals : list nat.
Variable occupied : gmap string string.
Variable animal : FictionalAnimal.

Lemma is_safe_known st :
  is_Some (graph !! st) → ∃ safe, is_safe graph σ animals occupied animal st = Ok safe.
Proof.
  intros [adjacent Hst]. unfold is_safe, is_threat_nearby. rewrite Hst.
  destruct (same_state _ _); [by eexists|].
  destruct (next_to_threat _ _ _); by eexists.
Qed.

Lemma is_safe_true_known st :
  is_safe graph σ animals occupied animal st = Ok true → is_Some (graph !! st).
Proof.
  unfold is_safe, is_threat_nearby.
  destruct (same_state _ _); [done|].
  destruct (next_to_threat _ _ _); [done|].
  destruct (graph !! st); [by eexists | done].
Qed.

Lemma try_states_cons st rest :
  try_states graph σ animals occupied animal (st :: rest) =
  if bool_decide (is_Some (occupied !! st))
  then try_states graph σ animals occupied animal rest
  else safe ← is_safe graph σ animals occupied animal st ;
       if safe : bool then Ok (Some st)
       else try_states graph σ animals occupied animal rest.
Proof. reflexivity. Qed.

Lemma try_states_skip st rest :
  passed_over graph σ animals occupied animal st →
  try_states graph σ animals occupied animal (st :: rest) =
  try_states graph σ animals occupied animal rest.
Proof.
  intros Hskip. rewrite try_states_cons. case_bool_decide as Hocc; [done|].
  destruct Hskip as [Htaken | Hunsafe]; [done|]. by rewrite Hunsafe.
Qed.

Lemma try_states_take st rest :
  occupied !! st = None →
  is_safe graph σ animals occupied animal st = Ok true →
  try_states graph σ animals occupied animal (st :: rest) = Ok (Some st).
Proof.
  intros Hfree Hsafe. rewrite try_states_cons.
  rewrite bool_decide_eq_false_2; [|rewrite Hfree; by intros [??]].
  by rewrite Hsafe.
Qed.

(** The loop commits the first candidate that is free and safe. *)
Lemma try_states_first_fit before st after :
  Forall (passed_over graph σ animals occupied animal) before →
  occupied !! st = None →
  is_safe graph σ animals occupied animal st = Ok true →
  try_states graph σ animals occupied animal (before ++ st :: after) = Ok (Some st).
Proof.
  intros Hbefore Hfree Hsafe.
  induction Hbefore as [|c before Hc _ IH]; simpl app.
  - by apply try_states_take.
  - by rewrite try_states_skip.
Qed.

Lemma try_states_exhausted order :
  Forall (passed_over graph σ animals occupied animal) order →
  try_states graph σ animals occupied animal order = Ok None.
Proof.
  induction 1 as [|c order Hc _ IH]; [done|]. by rewrite try_states_skip.
Qed.

Lemma try_states_Some order st :
  try_states graph σ animals occupied animal order = Ok (Some st) →
  ∃ before after,
    order = before ++ st :: after ∧
    Forall (passed_over graph σ animals occupied animal) before ∧
    occupied !! st = None ∧
    is_safe graph σ animals occupied animal st = Ok true.
Proof.
  induction order as [|c order IH]; [done|].
  rewrite try_states_cons. case_bool_decide as Hocc.
  - intros (before & after & -> & Hbefore & Hfree & Hsafe)%IH.
    exists (c :: before), after. split_and!; try done.
    constructor; [by left | done].
  - destruct (is_safe graph σ animals occupied animal c) as [[]|key] eqn:Hsafe;
      simpl; [|..|done].
    + intros [= <-]. exists [], order. split_and!; try done.
      destruct (occupied !! c) eqn:Hc; [|done]. destruct Hocc. by eexists.
    + intros (before & after & -> & Hbefore & Hfree & Hsafe')%IH.
      exists (c :: before), after. split_and!; try done.
      constructor; [by right | done].
Qed.

Lemma try_states_None order :
  try_states graph σ animals occupied animal order = Ok None →
  Forall (passed_over graph σ animals occupied animal) order.
Proof.
  induction order as [|c order IH]; [by constructor|].
  rewrite try_states_cons. case_bool_decide as Hocc.
  - intros Hrest. constructor; [by left | by apply IH].
  - destruct (is_safe graph σ animals occupied animal c) as [[]|key] eqn:Hsafe;
      simpl; [done| |done].
    intros Hrest. constructor; [by right | by apply IH].
Qed.

Lemma try_states_elem_of order st :
  try_states graph σ animals occupied animal order = Ok (Some st) →
  st ∈ order ∧ occupied !! st = None ∧ is_Some (graph !! st).
Proof.
  intros (before & after & -> & _ & Hfree & Hsafe)%try_states_Some.
  split_and!; [set_solver | done | by eapply is_safe_true_known].
Qed.

(** No candidate raises when every candidate is a key of the graph. *)
Lemma try_states_returns order :
  Forall (λ st, is_Some (graph !! st)) order →
  ∃ placed, try_states graph σ animals occupied animal order = Ok placed.
Proof.
  induction 1 as [|c order Hc _ [placed IH]]; [by eexists|].
  rewrite try_states_cons. case_bool_decide; [by eexists|].
  destruct (is_safe_known c Hc) as [[] ->]; simpl; by eexists.
Qed.

End Candidates.

(** ** One iteration of the loop over the animals *)

Section Iteration.

Variable graph : gmap string (list string).
Variable animals : list nat.

(** What an iteration does to the store and to the table. *)
Lemma relocate_one_inv σ occupied r σ' occupied' :
  relocate_one graph animals σ occupied r = Ok (σ', occupied') →
  (σ !! r = None ∧ σ' = σ ∧ occupied' = occupied) ∨
  ∃ animal,
    σ !! r = Some animal ∧
    ((∃ st,
        try_states graph σ animals occupied animal state_order = Ok (Some st) ∧
        σ' = alter (λ a, with_state a st) r σ ∧
        occupied' = <[st := name animal]> occupied) ∨
     (try_states graph σ animals occupied animal state_order = Ok None ∧
      σ' = alter (λ a, with_state a "ACT") r σ ∧
      occupied' = occupied)).
Proof.
  unfold relocate_one. destruct (σ !! r) as [animal|] eqn:Hr.
  - destruct (try_states graph σ animals occupied animal state_order)
      as [[st|]|key] eqn:Htry; simpl; [| |done].
    + intros [= <- <-]. right. exists animal. split; [done|]. left. exists st.
      split_and!; [done| |done].
      apply try_states_elem_of in Htry as (_ & _ & Hkey).
      apply list_alter_ext; [|done]. intros a _. by apply set_state_key.
    + intros [= <- <-]. right. exists animal. split; [done|]. right.
      split_and!; [done| |done].
      apply list_alter_ext; [|done]. intros a _. apply set_state_ACT.
  - intros [= <- <-]. by left.
Qed.

Lemma relocate_one_length σ occupied r σ' occupied' :
  relocate_one graph animals σ occupied r = Ok (σ', occupied') →
  length σ' = length σ.
Proof.
  intros [(_ & -> & _) | (animal & _ & [(st & _ & -> & _) | (_ & -> & _)])]%relocate_one_inv;
    by rewrite ?length_alter.
Qed.

(** Only the object of the iteration is written. *)
Lemma relocate_one_others σ occupied r σ' occupied' r' :
  relocate_one graph animals σ occupied r = Ok (σ', occupied') →
  r' ≠ r → σ' !! r' = σ !! r'.
Proof.
  intros [(_ & -> & _) | (animal & _ & [(st & _ & -> & _) | (_ & -> & _)])]%relocate_one_inv
    Hne; by rewrite ?list_lookup_alter_ne.
Qed.

(** Names, habitats and threats are never written. *)
Lemma relocate_one_fields σ occupied r σ' occupied' r' a' :
  relocate_one graph animals σ occupied r = Ok (σ', occupied') →
  σ' !! r' = Some a' →
  ∃ a, σ !! r' = Some a ∧
       name a' = name a ∧ habitat a' = habitat a ∧ threat a' = threat a.
Proof.
  intros Hone Ha'. destruct (decide (r' = r)) as [->|Hne].
  - apply relocate_one_inv in Hone
      as [(_ & -> & _) | (animal & Hr & [(st & _ & -> & _) | (_ & -> & _)])];
      [by eexists | |].
    all: rewrite list_lookup_alter_eq, Hr in Ha'; injection Ha' as <-; by eexists.
  - rewrite (relocate_one_others _ _ _ _ _ _ Hone Hne) in Ha'. by eexists.
Qed.

(** The table only grows: an entry is never removed or overwritten. *)
Lemma relocate_one_occupied σ occupied r σ' occupied' :
  relocate_one graph animals σ occupied r = Ok (σ', occupied') →
  occupied ⊆ occupied'.
Proof.
  intros [(_ & _ & ->) | (animal & _ & [(st & Htry & _ & ->) | (_ & _ & ->)])]%relocate_one_inv;
    [done| |done].
  apply try_states_elem_of in Htry as (_ & Hfree & _). by apply insert_subseteq.
Qed.

Lemma relocate_one_returns σ occupied r :
  Forall (λ st, is_Some (graph !! st)) state_order →
  ∃ σ' occupied', relocate_one graph animals σ occupied r = Ok (σ', occupied').
Proof.
  intros Hkeys. unfold relocate_one. destruct (σ !! r) as [animal|]; [|by eexists _, _].
  destruct (try_states_returns graph σ animals occupied animal _ Hkeys) as [[st|] ->];
    simpl; by eexists _, _.
Qed.

(** ** The loop over the animals *)

Lemma relocate_loop_cons r rest σ occupied :
  relocate_loop graph animals (r :: rest) σ occupied =
  '(σ', occupied') ← relocate_one graph animals σ occupied r ;
  relocate_loop graph animals rest σ' occupied'.
Proof. reflexivity. Qed.

Lemma relocate_loop_cons_inv r rest σ occupied σ'' occupied'' :
  relocate_loop graph animals (r :: rest) σ occupied = Ok (σ'', occupied'') →
  ∃ σ' occupied',
    relocate_one graph animals σ occupied r = Ok (σ', occupied') ∧
    relocate_loop graph animals rest σ' occupied' = Ok (σ'', occupied'').
Proof.
  rewrite relocate_loop_cons.
  destruct (relocate_one graph animals σ occupied r) as [[σ' occupied']|key]; [|done].
  intros Hrest. by exists σ', occupied'.
Qed.

(** The iterations for a list are those for its first part, then those
    for the rest. *)
Lemma relocate_loop_app todo1 todo2 σ occupied :
  relocate_loop graph animals (todo1 ++ todo2) σ occupied =
  '(σ', occupied') ← relocate_loop graph animals todo1 σ occupied ;
  relocate_loop graph animals todo2 σ' occupied'.
Proof.
  revert σ occupied. induction todo1 as [|r todo1 IH]; intros σ occupied; [done|].
  simpl app. rewrite !relocate_loop_cons.
  destruct (relocate_one graph animals σ occupied r) as [[σ1 occupied1]|key]; [|done].
  apply IH.
Qed.

(** Invariant rule: [I done σ occupied] speaks of the animals processed so
    far, the store and the table. *)
Lemma relocate_loop_invariant (I : list nat → store → gmap string string → Prop) :
  (∀ done σ occupied r σ' occupied',
     I done σ occupied →
     relocate_one graph animals σ occupied r = Ok (σ', occupied') →
     I (done ++ [r]) σ' occupied') →
  ∀ todo done σ occupied σ' occupied',
    I done σ occupied →
    relocate_loop graph animals todo σ occupied = Ok (σ', occupied') →
    I (done ++ todo) σ' occupied'.
Proof.
  intros Hstep todo.
  induction todo as [|r todo IH]; intros done σ occupied σ' occupied' HI Hloop.
  - injection Hloop as <- <-. by rewrite app_nil_r.
  - apply relocate_loop_cons_inv in Hloop as (σ1 & occupied1 & Hone & Hloop).
    rewrite (assoc_L _ done [r] todo : done ++ r :: todo = (done ++ [r]) ++ todo).
    eapply IH; [|done]. by eapply Hstep.
Qed.

Lemma relocate_loop_returns todo σ occupied :
  Forall (λ st, is_Some (graph !! st)) state_order →
  ∃ σ' occupied', relocate_loop graph animals todo σ occupied = Ok (σ', occupied').
Proof.
  intros Hkeys. revert σ occupied.
  induction todo as [|r todo IH]; intros σ occupied; [by eexists _, _|].
  rewrite relocate_loop_cons.
  destruct (relocate_one_returns σ occupied r Hkeys) as (σ1 & occupied1 & ->).
  apply IH.
Qed.

Lemma relocate_loop_length todo σ occupied σ' occupied' :
  relocate_loop graph animals todo σ occupied = Ok (σ', occupied') →
  length σ' = length σ.
Proof.
  revert σ occupied. induction todo as [|r todo IH]; intros σ occupied.
  - by intros [= <- <-].
  - intros (σ1 & occupied1 & Hone & Hloop)%relocate_loop_cons_inv.
    rewrite (IH _ _ Hloop). by eapply relocate_one_length.
Qed.

(** Objects that are not in [todo] are not written, and the table only
    grows. *)
Lemma relocate_loop_others todo σ occupied σ' occupied' r :
  relocate_loop graph animals todo σ occupied = Ok (σ', occupied') →
  r ∉ todo → σ' !! r = σ !! r.
Proof.
  revert σ occupied. induction todo as [|r0 todo IH]; intros σ occupied.
  - by intros [= <- <-].
  - intros (σ1 & occupied1 & Hone & Hloop)%relocate_loop_cons_inv Hr.
    rewrite (IH _ _ Hloop); [|set_solver].
    eapply relocate_one_others; [done | set_solver].
Qed.

Lemma relocate_loop_occupied todo σ occupied σ' occupied' :
  relocate_loop graph animals todo σ occupied = Ok (σ', occupied') →
  occupied ⊆ occupied'.
Proof.
  revert σ occupied. induction todo as [|r0 todo IH]; intros σ occupied.
  - by intros [= <- <-].
  - intros (σ1 & occupied1 & Hone & Hloop)%relocate_loop_cons_inv.
    etrans; [by eapply relocate_one_occupied | by eapply IH].
Qed.

Lemma relocate_loop_fields todo σ occupied σ' occupied' r a' :
  relocate_loop graph animals todo σ occupied = Ok (σ', occupied') →
  σ' !! r = Some a' →
  ∃ a, σ !! r = Some a ∧
       name a' = name a ∧ habitat a' = habitat a ∧ threat a' = threat a.
Proof.
  revert σ occupied. induction todo as [|r0 todo IH]; intros σ occupied.
  - intros [= <- <-] Ha'. by eexists.
  - intros (σ1 & occupied1 & Hone & Hloop)%relocate_loop_cons_inv Ha'.
    destruct (IH _ _ Hloop Ha') as (a1 & Ha1 & Hn1 & Hh1 & Ht1).
    destruct (relocate_one_fields _ _ _ _ _ _ _ Hone Ha1) as (a & Ha & Hn & Hh & Ht).
    exists a. split_and!; [done|congruence..].
Qed.

End Iteration.

(** ** What holds of the animals processed so far *)

Section Invariants.

Variable graph : gmap string (list string).
Variable animals : list nat.

Lemma settled_weaken occupied occupied' a :
  occupied ⊆ occupied' → settled occupied a → settled occupied' a.
Proof.
  intros Hsub [Hact | [Hin Hocc]]; [by left | right].
  split; [done|]. by eapply lookup_weaken.
Qed.

Lemma state_order_ACT st : st ∈ state_order → st ≠ "ACT".
Proof. intros Hin ->. by apply state_order_not_ACT. Qed.

Lemma settled_taken occupied a :
  settled occupied a → get_state a ≠ "ACT" → is_Some (occupied !! get_state a).
Proof. intros [Hact | [_ Hocc]] Hne; [done | by eexists]. Qed.

Lemma processed_nil σ : processed [] σ ∅.
Proof.
  split.
  - intros r a Hr. by apply elem_of_nil in Hr.
  - intros r1 r2 a1 a2 Hr1. by apply elem_of_nil in Hr1.
  - intros st [nm Hst]. by rewrite lookup_empty in Hst.
  - intros _ st nm Hst. by rewrite lookup_empty in Hst.
Qed.

(** An iteration that finds no object changes nothing. *)
Lemma processed_skip done σ occupied r :
  σ !! r = None → processed done σ occupied → processed (done ++ [r]) σ occupied.
Proof.
  intros Hr [Hsettled Hdistinct Hkeys Hsound].
  assert (Hdone : ∀ r' a, r' ∈ done ++ [r] → σ !! r' = Some a → r' ∈ done).
  { intros r' a [Hin | ->%list_elem_of_singleton]%elem_of_app Ha; [done | congruence]. }
  split; [| |done|].
  - intros r' a Hr' Ha. eauto.
  - intros r1 r2 a1 a2 Hr1 Hr2 Ha1 Ha2. eauto.
  - intros [Hnodup _]%NoDup_app st nm Hst.
    destruct (Hsound Hnodup st nm Hst) as (r0 & a & Hr0 & Ha).
    exists r0, a. split; [set_solver | done].
Qed.

(** An iteration that places the animal in a free state of the order. *)
Lemma processed_place done σ occupied r animal st :
  σ !! r = Some animal → st ∈ state_order → occupied !! st = None →
  processed done σ occupied →
  processed (done ++ [r]) (alter (λ a, with_state a st) r σ)
    (<[st := name animal]> occupied).
Proof.
  intros Hr Hst Hfree [Hsettled Hdistinct Hkeys Hsound].
  assert (Hsub : occupied ⊆ <[st := name animal]> occupied) by by apply insert_subseteq.
  assert (Hold : ∀ r' a, r' ∈ done ++ [r] → r' ≠ r →
            alter (λ a, with_state a st) r σ !! r' = Some a →
            r' ∈ done ∧ σ !! r' = Some a ∧ get_state a ≠ st).
  { intros r' a [Hin | ->%list_elem_of_singleton]%elem_of_app Hne; [|done].
    rewrite list_lookup_alter_ne by done. intros Ha. split_and!; [done..|].
    intros Heq. destruct (settled_taken occupied a) as [nm Hnm]; [by eauto| |].
    - rewrite Heq. by apply state_order_ACT.
    - congruence. }
  assert (Hnew : ∀ a, alter (λ a, with_state a st) r σ !! r = Some a →
            a = with_state animal st).
  { intros a. rewrite list_lookup_alter_eq, Hr. by intros [= <-]. }
  split.
  - intros r' a Hr' Ha. destruct (decide (r' = r)) as [->|Hne].
    + rewrite (Hnew a Ha). right. split; [done|]. simpl. by rewrite lookup_insert_eq.
    + destruct (Hold r' a Hr' Hne Ha) as (Hin & Ha' & _).
      eapply settled_weaken; [done|]. eauto.
  - intros r1 r2 a1 a2 Hr1 Hr2 Ha1 Ha2 Heq Hact.
    destruct (decide (r1 = r)) as [->|Hne1]; destruct (decide (r2 = r)) as [->|Hne2];
      [done| | |].
    + destruct (Hold r2 a2 Hr2 Hne2 Ha2) as (_ & _ & Hst2).
      rewrite (Hnew a1 Ha1) in Heq. by destruct Hst2.
    + destruct (Hold r1 a1 Hr1 Hne1 Ha1) as (_ & _ & Hst1).
      rewrite (Hnew a2 Ha2) in Heq. by destruct Hst1.
    + destruct (Hold r1 a1 Hr1 Hne1 Ha1) as (Hin1 & Ha1' & _).
      destruct (Hold r2 a2 Hr2 Hne2 Ha2) as (Hin2 & Ha2' & _). eauto.
  - intros st' [nm Hst']. destruct (decide (st = st')) as [<-|Hne]; [done|].
    rewrite lookup_insert_ne in Hst' by done. apply Hkeys. by eexists.
  - intros [Hnodup [Hfresh _]]%NoDup_app st' nm Hst'.
    destruct (decide (st = st')) as [<-|Hne].
    + rewrite lookup_insert_eq in Hst'. injection Hst' as <-.
      exists r, (with_state animal st).
      split_and!; [set_solver | by rewrite list_lookup_alter_eq, Hr | done..].
    + rewrite lookup_insert_ne in Hst' by done.
      destruct (Hsound Hnodup st' nm Hst') as (r0 & a & Hr0 & Ha & Hnm & Hsta).
      exists r0, a. split_and!; [set_solver | | done..].
      rewrite list_lookup_alter_ne; [done|]. intros <-. apply (Hfresh r); set_solver.
Qed.

(** An iteration that places the animal nowhere. *)
Lemma processed_fail done σ occupied r animal :
  σ !! r = Some animal →
  processed done σ occupied →
  processed (done ++ [r]) (alter (λ a, with_state a "ACT") r σ) occupied.
Proof.
  intros Hr [Hsettled Hdistinct Hkeys Hsound].
  assert (Hold : ∀ r' a, r' ∈ done ++ [r] → r' ≠ r →
            alter (λ a, with_state a "ACT") r σ !! r' = Some a →
            r' ∈ done ∧ σ !! r' = Some a).
  { intros r' a [Hin | ->%list_elem_of_singleton]%elem_of_app Hne; [|done].
    by rewrite list_lookup_alter_ne by done. }
  assert (Hnew : ∀ a, alter (λ a, with_state a "ACT") r σ !! r = Some a →
            get_state a = "ACT").
  { intros a. rewrite list_lookup_alter_eq, Hr. by intros [= <-]. }
  split; [| |done|].
  - intros r' a Hr' Ha. destruct (decide (r' = r)) as [->|Hne].
    + left. by apply Hnew.
    + destruct (Hold r' a Hr' Hne Ha) as [Hin Ha']. eauto.
  - intros r1 r2 a1 a2 Hr1 Hr2 Ha1 Ha2 Heq Hact.
    destruct (decide (r1 = r)) as [->|Hne1]; [by destruct Hact; apply Hnew|].
    destruct (decide (r2 = r)) as [->|Hne2].
    { destruct Hact. rewrite Heq. by apply Hnew. }
    destruct (Hold r1 a1 Hr1 Hne1 Ha1) as [Hin1 Ha1'].
    destruct (Hold r2 a2 Hr2 Hne2 Ha2) as [Hin2 Ha2']. eauto.
  - intros [Hnodup [Hfresh _]]%NoDup_app st nm Hst.
    destruct (Hsound Hnodup st nm Hst) as (r0 & a & Hr0 & Ha & Hnm & Hsta).
    exists r0, a. split_and!; [set_solver | | done..].
    rewrite list_lookup_alter_ne; [done|]. intros <-. apply (Hfresh r); set_solver.
Qed.

Lemma relocate_one_processed done σ occupied r σ' occupied' :
  processed done σ occupied →
  relocate_one graph animals σ occupied r = Ok (σ', occupied') →
  processed (done ++ [r]) σ' occupied'.
Proof.
  intros Hinv
    [(Hr & -> & ->) | (animal & Hr & [(st & Htry & -> & ->) | (_ & -> & ->)])]%relocate_one_inv.
  - by apply processed_skip.
  - apply try_states_elem_of in Htry as (Hin & Hfree & _). by apply processed_place.
  - by eapply processed_fail.
Qed.

(** The invariant holds at every point of the run, of the references
    [done] processed up to there. *)
Lemma relocate_loop_processed done σ σ' occupied' :
  relocate_loop graph animals done σ ∅ = Ok (σ', occupied') →
  processed done σ' occupied'.
Proof.
  intros Hrun.
  apply (relocate_loop_invariant graph animals processed
           relocate_one_processed done [] σ ∅ σ' occupied');
    [apply processed_nil | done].
Qed.

(** It holds of all the animals when the run is over. *)
Lemma relocate_animals_processed σ σ' occupied' :
  relocate_animals_in graph σ animals = Ok (σ', occupied') →
  processed animals σ' occupied'.
Proof. apply relocate_loop_processed. Qed.

(** At every point of the run, the table has the name of a processed
    animal under the state it is in, unless that is 'ACT'. *)
Lemma placed_animal_in_table done σ σ' occupied' r a :
  relocate_loop graph animals done σ ∅ = Ok (σ', occupied') →
  r ∈ done → σ' !! r = Some a → get_state a ≠ "ACT" →
  occupied' !! get_state a = Some (name a).
Proof.
  intros [Hsettled _ _ _]%relocate_loop_processed Hr Ha Hact.
  by destruct (Hsettled r a Hr Ha) as [|[_ ?]].
Qed.

End Invariants.

(** ** Names *)

Section Names.

Variable σ : store.

Lemma objects_cons r rest :
  objects σ (r :: rest) =
  match σ !! r with
  | Some a => a :: objects σ rest
  | None => objects σ rest
  end.
Proof. reflexivity. Qed.

Lemma elem_of_objects animals r a :
  r ∈ animals → σ !! r = Some a → a ∈ objects σ animals.
Proof. intros Hr Ha. apply list_elem_of_omap. by exists r. Qed.

Lemma elem_of_names animals r a :
  r ∈ animals → σ !! r = Some a → name a ∈ name <$> objects σ animals.
Proof.
  intros Hr Ha. apply list_elem_of_fmap. exists a. split; [done|].
  by eapply elem_of_objects.
Qed.

(** With unique names, a name denotes one reference of the list. *)
Lemma unique_names_ref animals r1 r2 a1 a2 :
  NoDup (name <$> objects σ animals) →
  r1 ∈ animals → r2 ∈ animals →
  σ !! r1 = Some a1 → σ !! r2 = Some a2 →
  name a1 = name a2 → r1 = r2.
Proof.
  induction animals as [|r rest IH]; intros Hnodup Hr1 Hr2 Ha1 Ha2 Hname.
  { by apply elem_of_nil in Hr1. }
  rewrite objects_cons in Hnodup.
  destruct (decide (r1 = r)) as [->|Hne1]; destruct (decide (r2 = r)) as [->|Hne2];
    [done|..].
  - rewrite Ha1 in Hnodup. apply NoDup_cons in Hnodup as [Hfresh _].
    destruct Hfresh. rewrite Hname. apply (elem_of_names rest r2); [set_solver|done].
  - rewrite Ha2 in Hnodup. apply NoDup_cons in Hnodup as [Hfresh _].
    destruct Hfresh. rewrite <- Hname. apply (elem_of_names rest r1); [set_solver|done].
  - apply IH; [|set_solver..|done|done|done].
    destruct (σ !! r); [by apply NoDup_cons in Hnodup as [_ ?] | done].
Qed.

(** With unique names, no object is listed twice. *)
Lemma unique_names_NoDup animals :
  Forall (λ r, is_Some (σ !! r)) animals →
  NoDup (name <$> objects σ animals) → NoDup animals.
Proof.
  induction 1 as [|r rest [a Ha] _ IH]; [constructor|].
  rewrite objects_cons, Ha. intros [Hfresh Hnodup]%NoDup_cons.
  constructor; [|by apply IH].
  intros Hr. apply Hfresh. by apply (elem_of_names rest r).
Qed.

(** With unique names, the lookup by name finds the listed animal that has
    the name. *)
Lemma next_named_unique animals a :
  NoDup (name <$> objects σ animals) →
  a ∈ objects σ animals →
  next_named σ animals (name a) = Some a.
Proof.
  unfold next_named. generalize (objects σ animals) as l.
  induction l as [|b l IH]; intros Hnodup Ha; [by apply elem_of_nil in Ha|].
  apply NoDup_cons in Hnodup as [Hfresh Hnodup]. rewrite filter_cons.
  apply elem_of_cons in Ha as [->|Ha].
  - by rewrite decide_True.
  - rewrite decide_False; [by apply IH|].
    intros Heq. apply Hfresh. rewrite Heq. apply list_elem_of_fmap. by exists a.
Qed.

End Names.

(** ** The run with the shipped graph *)

(** [relocate_animals] raises no exception. *)
Lemma relocate_animals_returns σ animals :
  ∃ σ' occupied, relocate_animals σ animals = Ok (σ', occupied).
Proof. apply relocate_loop_returns, state_order_keys. Qed.

(** The objects of the store are the same ones after the run. *)
Lemma relocate_animals_lookup σ animals σ' occupied r :
  relocate_animals σ animals = Ok (σ', occupied) →
  is_Some (σ !! r) → is_Some (σ' !! r).
Proof.
  intros Hrun Hr. apply lookup_lt_is_Some.
  rewrite (relocate_loop_length _ _ _ _ _ _ _ Hrun). by apply lookup_lt_is_Some.
Qed.

(** C1. No state of [ADJACENT_STATES] holds two animals when
    [relocate_animals] is over: the run ends without an exception, and two
    distinct animals of the list that end in the same state are both in
    'ACT'; an animal that is not in 'ACT' is in a key of [ADJACENT_STATES]
    and the [occupied] table, which has one name for a state, has its name
    there. This holds for every list, also one that lists an object twice
    or has equal names. *)
Theorem no_double_occupancy (σ : store) (animals : list nat) (r1 r2 : nat) :
  r1 ∈ animals → r2 ∈ animals → r1 ≠ r2 →
  is_Some (σ !! r1) → is_Some (σ !! r2) →
  ∃ σ' occupied a1 a2,
    relocate_animals σ animals = Ok (σ', occupied) ∧
    σ' !! r1 = Some a1 ∧ σ' !! r2 = Some a2 ∧
    (get_state a1 = get_state a2 → get_state a1 = "ACT") ∧
    (get_state a1 ≠ "ACT" →
       is_Some (ADJACENT_STATES !! get_state a1) ∧
       occupied !! get_state a1 = Some (name a1)).
Proof.
  intros Hr1 Hr2 Hne Hobj1 Hobj2.
  destruct (relocate_animals_returns σ animals) as (σ' & occupied & Hrun).
  destruct (relocate_animals_lookup _ _ _ _ r1 Hrun Hobj1) as [a1 Ha1].
  destruct (relocate_animals_lookup _ _ _ _ r2 Hrun Hobj2) as [a2 Ha2].
  destruct (relocate_animals_processed _ _ _ _ _ Hrun) as [Hsettled Hdistinct _ _].
  exists σ', occupied, a1, a2. split_and!; [done..| |].
  - intros Heq. destruct (decide (get_state a1 = "ACT")) as [|Hact]; [done|].
    destruct Hne. eauto.
  - intros Hact. destruct (Hsettled r1 a1 Hr1 Ha1) as [|[Hin Hocc]]; [done|].
    split; [|done].
    exact (proj1 (Forall_forall _ _) state_order_keys _ Hin).
Qed.

Lemma no_double_occupancy_witness :
  ∃ σ' occupied a1 a2,
    relocate_animals [init "Bilby" "desert" "Quoll"; init "Quoll" "forest" "Dingo"] [0; 1; 0]
      = Ok (σ', occupied) ∧
    σ' !! 0 = Some a1 ∧ σ' !! 1 = Some a2 ∧
    (get_state a1 = get_state a2 → get_state a1 = "ACT") ∧
    (get_state a1 ≠ "ACT" →
       is_Some (ADJACENT_STATES !! get_state a1) ∧
       occupied !! get_state a1 = Some (name a1)).
Proof.
  apply no_double_occupancy.
  - by_evaluation.
  - by_evaluation.
  - lia.
  - by_evaluation.
  - by_evaluation.
Defined.

(** C7. When [relocate_animals] is over, the state of every animal of the
    list is 'ACT' or a key of [ADJACENT_STATES], whatever its state was
    before the run; the run ends without an exception. *)
Theorem final_state_default_or_real (σ : store) (animals : list nat) (r : nat) :
  r ∈ animals → is_Some (σ !! r) →
  ∃ σ' occupied a,
    relocate_animals σ animals = Ok (σ', occupied) ∧
    σ' !! r = Some a ∧
    (get_state a = "ACT" ∨ get_state a ∈ dom ADJACENT_STATES).
Proof.
  intros Hr Hobj.
  destruct (relocate_animals_returns σ animals) as (σ' & occupied & Hrun).
  destruct (relocate_animals_lookup _ _ _ _ r Hrun Hobj) as [a Ha].
  destruct (relocate_animals_processed _ _ _ _ _ Hrun) as [Hsettled _ _ _].
  exists σ', occupied, a. split_and!; [done..|].
  destruct (Hsettled r a Hr Ha) as [|[Hin _]]; [by left | right].
  apply elem_of_dom. exact (proj1 (Forall_forall _ _) state_order_keys _ Hin).
Qed.

Lemma final_state_default_or_real_witness :
  ∃ σ' occupied a,
    relocate_animals
      [mkAnimal "Bilby" "desert" "Quoll" "Mars"; init "Quoll" "forest" "Bilby"] [0; 1]
      = Ok (σ', occupied) ∧
    σ' !! 1 = Some a ∧
    (get_state a = "ACT" ∨ get_state a ∈ dom ADJACENT_STATES).
Proof.
  apply final_state_default_or_real.
  - by_evaluation.
  - by_evaluation.
Defined.

(** C10. [set_state(s)] sets the state of the animal to [s] when [s] is a
    key of [ADJACENT_STATES] or is 'ACT', and leaves the animal as it is
    for every other string; it writes no other field, and being a total
    function it raises nothing. *)
Theorem set_state_valid_or_ignored (a : FictionalAnimal) (s : string) :
  (s ∈ dom ADJACENT_STATES ∨ s = "ACT" →
     set_state ADJACENT_STATES a s = mkAnimal (name a) (habitat a) (threat a) s) ∧
  (¬ (s ∈ dom ADJACENT_STATES ∨ s = "ACT") →
     set_state ADJACENT_STATES a s = a).
Proof.
  split.
  - intros [Hkey%elem_of_dom | ->]; [by apply set_state_key | apply set_state_ACT].
  - intros Hno. apply set_state_other.
    + apply eq_None_not_Some. intros Hkey. apply Hno. left. by apply elem_of_dom.
    + intros ->. apply Hno. by right.
Qed.

Lemma set_state_valid_or_ignored_witness :
  set_state ADJACENT_STATES (init "Bilby" "desert" "Quoll") "TAS"
    = mkAnimal "Bilby" "desert" "Quoll" "TAS" ∧
  set_state ADJACENT_STATES (init "Bilby" "desert" "Quoll") "Tasmania"
    = init "Bilby" "desert" "Quoll".
Proof.
  split.
  - apply (set_state_valid_or_ignored (init "Bilby" "desert" "Quoll") "TAS").
    left. by_evaluation.
  - apply (set_state_valid_or_ignored (init "Bilby" "desert" "Quoll") "Tasmania").
    by_evaluation.
Defined.

(** C9. With unique names, the state that [get_state] returns after the
    run is the one under which the [occupied] table has the name of the
    animal: the table has the name of an animal under a state exactly when
    the animal is in that state and the state is not 'ACT'. The
    [set_state] of a commit takes every state of the order. *)
Theorem table_round_trip (σ : store) (animals : list nat) (r : nat) :
  Forall (λ r, is_Some (σ !! r)) animals →
  NoDup (name <$> objects σ animals) →
  r ∈ animals →
  ∃ σ' occupied a,
    relocate_animals σ animals = Ok (σ', occupied) ∧
    σ' !! r = Some a ∧
    (∀ st, occupied !! st = Some (name a) ↔ get_state a = st ∧ st ≠ "ACT") ∧
    (∀ b st, st ∈ state_order → get_state (set_state ADJACENT_STATES b st) = st).
Proof.
  intros Hvalid Hnames Hr.
  assert (Hobj : is_Some (σ !! r)) by exact (proj1 (Forall_forall _ _) Hvalid _ Hr).
  destruct (relocate_animals_returns σ animals) as (σ' & occupied & Hrun).
  destruct (relocate_animals_lookup _ _ _ _ r Hrun Hobj) as [a Ha].
  destruct (relocate_animals_processed _ _ _ _ _ Hrun)
    as [Hsettled _ Hkeys Hsound].
  exists σ', occupied, a. split_and!; [done..| |].
  - intros st. split.
    + intros Hst.
      destruct (Hsound (unique_names_NoDup _ _ Hvalid Hnames) st _ Hst)
        as (r0 & a0 & Hr0 & Ha0 & Hname & Hstate).
      destruct (relocate_loop_fields _ _ _ _ _ _ _ _ _ Hrun Ha)
        as (b & Hb & Hnb & _).
      destruct (relocate_loop_fields _ _ _ _ _ _ _ _ _ Hrun Ha0)
        as (b0 & Hb0 & Hnb0 & _).
      assert (r0 = r) as ->.
      { apply (unique_names_ref σ animals r0 r b0 b); try done. congruence. }
      split; [congruence|]. apply state_order_ACT, Hkeys. by eexists.
    + intros [<- Hact]. by destruct (Hsettled r a Hr Ha) as [|[_ ?]].
  - intros b st Hst. rewrite set_state_key; [done|].
    exact (proj1 (Forall_forall _ _) state_order_keys _ Hst).
Qed.

Lemma table_round_trip_witness :
  ∃ σ' occupied a,
    relocate_animals [init "Bilby" "desert" "Quoll"; init "Quoll" "forest" "Dingo"] [0; 1]
      = Ok (σ', occupied) ∧
    σ' !! 1 = Some a ∧
    (∀ st, occupied !! st = Some (name a) ↔ get_state a = st ∧ st ≠ "ACT") ∧
    (∀ b st, st ∈ state_order → get_state (set_state ADJACENT_STATES b st) = st).
Proof.
  apply table_round_trip.
  - by_evaluation.
  - by_evaluation.
  - by_evaluation.
Defined.

(** ** The three checks *)

Section Checks.

Variable graph : gmap string (list string).
Variable σ : store.
Variable animals : list nat.
Variable occupied : gmap string string.
Variable animal : FictionalAnimal.

(** The reverse check runs in the [else] branch only. *)
Lemma is_safe_forward_fails st :
  same_state (next_named σ animals (threat animal)) st
    || next_to_threat graph (next_named σ animals (threat animal)) st = true →
  is_safe graph σ animals occupied animal st = Ok false.
Proof.
  unfold is_safe. destruct (same_state _ _); [done|].
  by destruct (next_to_threat _ _ _).
Qed.

Lemma is_safe_forward_passes st :
  same_state (next_named σ animals (threat animal)) st
    || next_to_threat graph (next_named σ animals (threat animal)) st = false →
  is_safe graph σ animals occupied animal st =
  nearby ← is_threat_nearby graph σ animals occupied animal st ; Ok (negb nearby).
Proof.
  unfold is_safe. destruct (same_state _ _); [done|].
  by destruct (next_to_threat _ _ _).
Qed.

(** A state that is not a key has no adjacent state for check (2) and
    makes the subscript of check (3) raise. *)
Lemma next_to_threat_unknown threat_animal st :
  graph !! st = None → next_to_threat graph threat_animal st = false.
Proof.
  intros Hst. unfold next_to_threat. rewrite Hst. destruct threat_animal; [|done].
  apply bool_decide_eq_false_2, not_elem_of_nil.
Qed.

Lemma is_threat_nearby_unknown st :
  graph !! st = None →
  is_threat_nearby graph σ animals occupied animal st = KeyError st.
Proof. intros Hst. unfold is_threat_nearby. by rewrite Hst. Qed.

Lemma is_safe_unknown st :
  graph !! st = None →
  same_state (next_named σ animals (threat animal)) st = false →
  is_safe graph σ animals occupied animal st = KeyError st.
Proof.
  intros Hst Hsame. rewrite is_safe_forward_passes.
  - by rewrite is_threat_nearby_unknown.
  - by rewrite Hsame, next_to_threat_unknown.
Qed.

Lemma threatens_victim adj_state victim :
  occupied !! adj_state = Some (name victim) →
  next_named σ animals (name victim) = Some victim →
  threat victim = name animal →
  threatens σ animals occupied animal adj_state = true.
Proof.
  intros Hocc Hvictim Hthreat. unfold threatens. rewrite Hocc, Hvictim.
  by apply bool_decide_eq_true_2.
Qed.

Lemma try_states_unsafe order st :
  is_safe graph σ animals occupied animal st = Ok false →
  try_states graph σ animals occupied animal order ≠ Ok (Some st).
Proof.
  intros Hunsafe (_ & _ & _ & _ & _ & Hsafe)%try_states_Some. congruence.
Qed.

End Checks.

(** C2. Placement at a candidate fails when an animal that the table has
    in a state adjacent to the candidate (by the entry of the graph for the
    candidate) has the name of the animal being placed as its threat: the
    reverse check finds it, the checks leave [safe = False], and the loop
    over the states does not commit the candidate. The animal in the table
    is the one that the lookup of its name finds, which with unique names
    is every listed animal of that name. The reverse check is reached only
    after checks (1) and (2) pass: when one of them fails, the answer is
    [False] for every binding of the graph, also one under which the
    subscript of the reverse check would raise; when both pass, the answer
    is that of the reverse check. *)
Theorem reverse_threat_blocks (graph : gmap string (list string)) (σ : store)
    (animals : list nat) (occupied : gmap string string)
    (animal victim : FictionalAnimal) (st adj_state : string)
    (adjacent : list string) :
  graph !! st = Some adjacent →
  adj_state ∈ adjacent →
  occupied !! adj_state = Some (name victim) →
  next_named σ animals (name victim) = Some victim →
  threat victim = name animal →
  is_threat_nearby graph σ animals occupied animal st = Ok true ∧
  is_safe graph σ animals occupied animal st = Ok false ∧
  (∀ order, try_states graph σ animals occupied animal order ≠ Ok (Some st)) ∧
  (∀ g,
     is_safe g σ animals occupied animal st =
     if same_state (next_named σ animals (threat animal)) st
          || next_to_threat g (next_named σ animals (threat animal)) st
     then Ok false
     else nearby ← is_threat_nearby g σ animals occupied animal st ; Ok (negb nearby)).
Proof.
  intros Hst Hadj Hocc Hvictim Hthreat.
  assert (Hnearby : is_threat_nearby graph σ animals occupied animal st = Ok true).
  { unfold is_threat_nearby. rewrite Hst. f_equal.
    apply existsb_exists. exists adj_state. split; [by apply list_elem_of_In|].
    by apply threatens_victim with victim. }
  assert (Hunsafe : is_safe graph σ animals occupied animal st = Ok false).
  { destruct (same_state (next_named σ animals (threat animal)) st
              || next_to_threat graph (next_named σ animals (threat animal)) st)
      eqn:Hforward.
    - by apply is_safe_forward_fails.
    - rewrite is_safe_forward_passes by done. by rewrite Hnearby. }
  split_and!; [done..| |].
  - intros order. by apply try_states_unsafe.
  - intros g.
    destruct (same_state (next_named σ animals (threat animal)) st
              || next_to_threat g (next_named σ animals (threat animal)) st)
      eqn:Hforward.
    + by apply is_safe_forward_fails.
    + by apply is_safe_forward_passes.
Qed.

Lemma reverse_threat_blocks_witness :
  let σ := [mkAnimal "Bilby" "desert" "Quoll" "NSW"; init "Quoll" "forest" "Dingo"] in
  let occupied : gmap string string := {[ "NSW" := "Bilby" ]} in
  let quoll := init "Quoll" "forest" "Dingo" in
  is_threat_nearby ADJACENT_STATES σ [0; 1] occupied quoll "QLD" = Ok true ∧
  is_safe ADJACENT_STATES σ [0; 1] occupied quoll "QLD" = Ok false ∧
  (∀ order, try_states ADJACENT_STATES σ [0; 1] occupied quoll order ≠ Ok (Some "QLD")) ∧
  (∀ g,
     is_safe g σ [0; 1] occupied quoll "QLD" =
     if same_state (next_named σ [0; 1] (threat quoll)) "QLD"
          || next_to_threat g (next_named σ [0; 1] (threat quoll)) "QLD"
     then Ok false
     else nearby ← is_threat_nearby g σ [0; 1] occupied quoll "QLD" ; Ok (negb nearby)).
Proof.
  intros σ occupied quoll.
  apply (reverse_threat_blocks ADJACENT_STATES σ [0; 1] occupied quoll
           (mkAnimal "Bilby" "desert" "Quoll" "NSW") "QLD" "NSW" ["NT"; "SA"; "NSW"]).
  - reflexivity.
  - by_evaluation.
  - reflexivity.
  - reflexivity.
  - reflexivity.
Defined.



(** The run of the example above: after the first animal is in NSW, the
    second passes over NSW, which is taken, and QLD and VIC, where it
    would be next to the animal that names it as its threat, and is
    committed to TAS. *)
Example first_fit_whole_run :
  relocate_animals [init "Bilby" "desert" "Quoll"; init "Quoll" "forest" "Dingo"] [0; 1]
  = Ok ([mkAnimal "Bilby" "desert" "Quoll" "NSW"; mkAnimal "Quoll" "forest" "Dingo" "TAS"],
        <[ "TAS" := "Quoll" ]> {[ "NSW" := "Bilby" ]}).
Proof. vm_compute. reflexivity. Qed.

(** The run of the example above: the second animal passes over NSW,
    which is taken, and QLD and VIC, where it would be next to the animal
    it threatens, and is committed to TAS. *)
Example first_fit_run :
  relocate_one ADJACENT_STATES [0; 1]
    [mkAnimal "Bilby" "desert" "Quoll" "NSW"; init "Quoll" "forest" "Dingo"]
    {[ "NSW" := "Bilby" ]} 1
  = Ok ([mkAnimal "Bilby" "desert" "Quoll" "NSW"; mkAnimal "Quoll" "forest" "Dingo" "TAS"],
        <[ "TAS" := "Quoll" ]> {[ "NSW" := "Bilby" ]}).
Proof. vm_compute. reflexivity. Qed.

(** C4. The checks read the state the threat is in when they run. While
    the object that the threat of an animal resolves to has not had its
    iteration, it is as it was before the run; if that is 'ACT', then for
    every state of the order checks (1) and (2) pass, because 'ACT' is no
    state of the order and is in no list of [ADJACENT_STATES], and the
    candidate is decided by check (3) alone. *)
Theorem unplaced_threat_never_blocks (σ0 σ : store) (animals done : list nat)
    (occupied : gmap string string) (animal t0 : FictionalAnimal)
    (rt : nat) (st : string) :
  relocate_loop ADJACENT_STATES animals done σ0 ∅ = Ok (σ, occupied) →
  rt ∉ done →
  σ0 !! rt = Some t0 →
  get_state t0 = "ACT" →
  next_named σ animals (threat animal) = σ !! rt →
  st ∈ state_order →
  next_named σ animals (threat animal) = Some t0 ∧
  same_state (next_named σ animals (threat animal)) st = false ∧
  next_to_threat ADJACENT_STATES (next_named σ animals (threat animal)) st = false ∧
  is_safe ADJACENT_STATES σ animals occupied animal st =
    nearby ← is_threat_nearby ADJACENT_STATES σ animals occupied animal st ;
    Ok (negb nearby).
Proof.
  intros Hloop Hrt Ht0 Hact Hthreat Hst.
  assert (Hnow : next_named σ animals (threat animal) = Some t0).
  { rewrite Hthreat, <- Ht0. by eapply relocate_loop_others. }
  assert (Hsame : same_state (next_named σ animals (threat animal)) st = false).
  { rewrite Hnow. simpl. apply bool_decide_eq_false_2. rewrite Hact.
    intros <-. by apply state_order_not_ACT. }
  assert (Hnext :
    next_to_threat ADJACENT_STATES (next_named σ animals (threat animal)) st = false).
  { rewrite Hnow. simpl. apply bool_decide_eq_false_2. rewrite Hact.
    destruct (ADJACENT_STATES !! st) as [adjacent|] eqn:Hadj; simpl.
    - exact (ACT_not_adjacent _ _ Hadj).
    - apply not_elem_of_nil. }
  split_and!; [done..|].
  apply is_safe_forward_passes. by rewrite Hsame, Hnext.
Qed.

Lemma unplaced_threat_never_blocks_witness :
  let σ0 := [init "Emu" "plains" "-"; init "Bilby" "desert" "Quoll";
             init "Quoll" "forest" "Dingo"] in
  let σ := [mkAnimal "Emu" "plains" "-" "NSW"; init "Bilby" "desert" "Quoll";
            init "Quoll" "forest" "Dingo"] in
  let occupied : gmap string string := {[ "NSW" := "Emu" ]} in
  let bilby := init "Bilby" "desert" "Quoll" in
  next_named σ [0; 1; 2] (threat bilby) = Some (init "Quoll" "forest" "Dingo") ∧
  same_state (next_named σ [0; 1; 2] (threat bilby)) "QLD" = false ∧
  next_to_threat ADJACENT_STATES (next_named σ [0; 1; 2] (threat bilby)) "QLD" = false ∧
  is_safe ADJACENT_STATES σ [0; 1; 2] occupied bilby "QLD" =
    nearby ← is_threat_nearby ADJACENT_STATES σ [0; 1; 2] occupied bilby "QLD" ;
    Ok (negb nearby).
Proof.
  intros σ0 σ occupied bilby.
  apply (unplaced_threat_never_blocks σ0 σ [0; 1; 2] [0] occupied bilby
           (init "Quoll" "forest" "Dingo") 2 "QLD").
  - vm_compute. reflexivity.
  - by_evaluation.
  - reflexivity.
  - reflexivity.
  - reflexivity.
  - by_evaluation.
Defined.

(** ** A state that is not a key of the graph *)


(** With the dict the module defines, every state of the order is a key,
    so neither lookup misses and no iteration raises. *)
Lemma shipped_states_known σ animals occupied animal st :
  st ∈ state_order →
  ∃ safe, is_safe ADJACENT_STATES σ animals occupied animal st = Ok safe.
Proof.
  intros Hst. apply is_safe_known.
  exact (proj1 (Forall_forall _ _) state_order_keys _ Hst).
Qed.


(** ** The state an animal enters its iteration with *)

(** C6, as stated, fails: an animal that names itself as its threat and
    enters in 'NSW' is checked against 'NSW', passes over NSW, QLD and VIC
    and is committed to TAS; had its location been set to 'ACT' first, it
    would have been committed to NSW. *)
Lemma entry_state_not_reset :
  let echidna := mkAnimal "Echidna" "bush" "Echidna" "NSW" in
  relocate_one ADJACENT_STATES [0] [echidna] ∅ 0
    = Ok ([mkAnimal "Echidna" "bush" "Echidna" "TAS"], {[ "TAS" := "Echidna" ]}) ∧
  relocate_one_reset_first [0] [echidna] ∅ 0
    = Ok ([mkAnimal "Echidna" "bush" "Echidna" "NSW"], {[ "NSW" := "Echidna" ]}) ∧
  relocate_one ADJACENT_STATES [0] [echidna] ∅ 0
    ≠ relocate_one_reset_first [0] [echidna] ∅ 0.
Proof.
  intros echidna.
  assert (Hcode : relocate_one ADJACENT_STATES [0] [echidna] ∅ 0
    = Ok ([mkAnimal "Echidna" "bush" "Echidna" "TAS"], {[ "TAS" := "Echidna" ]}))
    by (vm_compute; reflexivity).
  assert (Hspec : relocate_one_reset_first [0] [echidna] ∅ 0
    = Ok ([mkAnimal "Echidna" "bush" "Echidna" "NSW"], {[ "NSW" := "Echidna" ]}))
    by (vm_compute; reflexivity).
  split_and!; [done..|].
  rewrite Hcode, Hspec. intros Heq. discriminate Heq.
Qed.

(** C6, amended. An iteration does not write the location before the
    candidates are tried: they are tried against the store as the animal
    entered it, and the location is written once, after them, to the
    committed state or else to 'ACT'. An animal made by [__init__] enters
    in 'ACT'. *)
Theorem location_written_after_candidates (σ : store) (animals : list nat)
    (occupied : gmap string string) (r : nat) (animal : FictionalAnimal) :
  σ !! r = Some animal →
  (∃ placed,
     try_states ADJACENT_STATES σ animals occupied animal state_order = Ok placed ∧
     relocate_one ADJACENT_STATES animals σ occupied r =
       Ok (<[r := with_state animal (default "ACT" placed)]> σ,
           from_option (λ st, <[st := name animal]> occupied) occupied placed)) ∧
  (∀ name habitat threat, get_state (init name habitat threat) = "ACT").
Proof.
  intros Hr. split; [|done].
  destruct (try_states_returns ADJACENT_STATES σ animals occupied animal
              state_order state_order_keys) as [placed Htry].
  exists placed. split; [done|].
  assert (Hwrite : ∀ st, alter (λ a, with_state a st) r σ = <[r := with_state animal st]> σ).
  { intros st. apply list_eq. intros i. destruct (decide (i = r)) as [->|Hne].
    - rewrite list_lookup_alter_eq, Hr, list_lookup_insert_eq; [done|].
      by eapply lookup_lt_Some.
    - by rewrite list_lookup_alter_ne, list_lookup_insert_ne. }
  destruct (relocate_one_returns ADJACENT_STATES animals σ occupied r state_order_keys)
    as (σ' & occupied' & Hone).
  rewrite Hone. apply relocate_one_inv in Hone
    as [(Hnone & _) | (animal' & Hr' & [(st & Htry' & -> & ->) | (Htry' & -> & ->)])];
    [congruence|..]; assert (animal' = animal) as -> by congruence.
  - assert (placed = Some st) as -> by congruence. simpl. by rewrite Hwrite.
  - assert (placed = None) as -> by congruence. simpl. by rewrite Hwrite.
Qed.

Lemma location_written_after_candidates_witness :
  let echidna := mkAnimal "Echidna" "bush" "Echidna" "NSW" in
  (∃ placed,
     try_states ADJACENT_STATES [echidna] [0] ∅ echidna state_order = Ok placed ∧
     relocate_one ADJACENT_STATES [0] [echidna] ∅ 0 =
       Ok (<[0 := with_state echidna (default "ACT" placed)]> [echidna],
           from_option (λ st, <[st := name echidna]> ∅) ∅ placed)) ∧
  (∀ name habitat threat, get_state (init name habitat threat) = "ACT").
Proof.
  intros echidna.
  apply (location_written_after_candidates [echidna] [0] ∅ 0 echidna).
  reflexivity.
Defined.

(** ** Two runs *)

Section TwoRuns.

Variable graph : gmap string (list string).
Variable animals : list nat.
Variable σ1 σ2 : store.
Hypothesis Hstores : Forall2 same_but_habitat σ1 σ2.

Lemma lookup_same r : option_Forall2 same_but_habitat (σ1 !! r) (σ2 !! r).
Proof. by apply Forall2_lookup. Qed.

Lemma objects_same refs :
  Forall2 same_but_habitat (objects σ1 refs) (objects σ2 refs).
Proof.
  induction refs as [|r refs IH]; [constructor|].
  rewrite !objects_cons.
  destruct (lookup_same r) as [a b Hab|]; [by constructor | done].
Qed.

Lemma next_named_same nm :
  option_Forall2 same_but_habitat (next_named σ1 animals nm) (next_named σ2 animals nm).
Proof.
  unfold next_named.
  induction (objects_same animals) as [|a b l k Hab _ IH]; [constructor|].
  pose proof Hab as (Hname & _ & _). rewrite !filter_cons, <- Hname.
  destruct (decide (name a = nm)); [by constructor | done].
Qed.

Lemma same_state_same ta tb st :
  option_Forall2 same_but_habitat ta tb → same_state ta st = same_state tb st.
Proof.
  intros [a b (_ & _ & Hstate)|]; [|done]. simpl. unfold get_state. by rewrite Hstate.
Qed.

Lemma next_to_threat_same ta tb st :
  option_Forall2 same_but_habitat ta tb →
  next_to_threat graph ta st = next_to_threat graph tb st.
Proof.
  intros [a b (_ & _ & Hstate)|]; [|done]. simpl. unfold get_state. by rewrite Hstate.
Qed.

Lemma threatens_same occupied a b adj_state :
  same_but_habitat a b →
  threatens σ1 animals occupied a adj_state = threatens σ2 animals occupied b adj_state.
Proof.
  intros (Hname & _ & _). unfold threatens.
  destruct (occupied !! adj_state) as [nm|]; [|done].
  destruct (next_named_same nm) as [va vb (_ & Hthreat & _)|]; [|done].
  by rewrite Hthreat, Hname.
Qed.

Lemma is_threat_nearby_same occupied a b st :
  same_but_habitat a b →
  is_threat_nearby graph σ1 animals occupied a st =
  is_threat_nearby graph σ2 animals occupied b st.
Proof.
  intros Hab. unfold is_threat_nearby.
  destruct (graph !! st) as [adjacent|]; [|done]. f_equal.
  induction adjacent as [|adj_state adjacent IH]; [done|]. simpl.
  by rewrite IH, (threatens_same occupied a b adj_state Hab).
Qed.

Lemma is_safe_same occupied a b st :
  same_but_habitat a b →
  is_safe graph σ1 animals occupied a st = is_safe graph σ2 animals occupied b st.
Proof.
  intros Hab. unfold is_safe.
  assert (Hthreat : option_Forall2 same_but_habitat
            (next_named σ1 animals (threat a)) (next_named σ2 animals (threat b))).
  { destruct Hab as (_ & <- & _). apply next_named_same. }
  rewrite (same_state_same _ _ st Hthreat), (next_to_threat_same _ _ st Hthreat).
  by rewrite (is_threat_nearby_same occupied a b st Hab).
Qed.

Lemma try_states_same occupied a b order :
  same_but_habitat a b →
  try_states graph σ1 animals occupied a order =
  try_states graph σ2 animals occupied b order.
Proof.
  intros Hab. induction order as [|st order IH]; [done|].
  by rewrite !try_states_cons, IH, (is_safe_same occupied a b st Hab).
Qed.

Lemma set_state_same a b st :
  same_but_habitat a b →
  same_but_habitat (set_state graph a st) (set_state graph b st).
Proof.
  intros (Hname & Hthreat & Hstate). unfold set_state.
  by destruct (is_key graph st || bool_decide (st = "ACT")).
Qed.

Lemma relocate_one_same occupied r :
  same_outcome (relocate_one graph animals σ1 occupied r)
               (relocate_one graph animals σ2 occupied r).
Proof.
  unfold relocate_one. destruct (lookup_same r) as [a b Hab|]; [|done].
  rewrite (try_states_same occupied a b state_order Hab).
  destruct (try_states graph σ2 animals occupied b state_order) as [[st|]|key];
    simpl; [| |done].
  - split; [|by destruct Hab as (-> & _)].
    apply Forall2_alter; [done|]. intros x y _ _. apply set_state_same.
  - split; [|done].
    apply Forall2_alter; [done|]. intros x y _ _. apply set_state_same.
Qed.

End TwoRuns.

Lemma relocate_loop_same graph animals todo σ1 σ2 occupied :
  Forall2 same_but_habitat σ1 σ2 →
  same_outcome (relocate_loop graph animals todo σ1 occupied)
               (relocate_loop graph animals todo σ2 occupied).
Proof.
  revert σ1 σ2 occupied.
  induction todo as [|r todo IH]; intros σ1 σ2 occupied Hstores; [done|].
  rewrite !relocate_loop_cons.
  pose proof (relocate_one_same graph animals σ1 σ2 Hstores occupied r) as Hone.
  destruct (relocate_one graph animals σ1 occupied r) as [[σ1' occupied1]|key1],
           (relocate_one graph animals σ2 occupied r) as [[σ2' occupied2]|key2];
    simpl in *; try done.
  destruct Hone as [Hstores' <-]. by apply IH.
Qed.

Lemma same_but_habitat_refl σ : Forall2 same_but_habitat σ σ.
Proof. apply Forall_Forall2_diag, Forall_forall. by intros a _. Qed.

Lemma states_same (l k : store) :
  Forall2 same_but_habitat l k → get_state <$> l = get_state <$> k.
Proof.
  induction 1 as [|a b l k (_ & _ & Hstate) _ IH]; [done|].
  rewrite !fmap_cons, IH. unfold get_state. by rewrite Hstate.
Qed.

(** C8. [relocate_animals] is deterministic: two runs on the same list,
    over stores whose objects have the same names, threats and states
    (the second store may be the first), end without an exception with the
    same table and the same state for every animal. *)
Theorem relocation_deterministic (σ1 σ2 : store) (animals : list nat) :
  Forall2 same_but_habitat σ1 σ2 →
  ∃ σ1' σ2' occupied,
    relocate_animals σ1 animals = Ok (σ1', occupied) ∧
    relocate_animals σ2 animals = Ok (σ2', occupied) ∧
    get_state <$> σ1' = get_state <$> σ2' ∧
    get_state <$> objects σ1' animals = get_state <$> objects σ2' animals.
Proof.
  intros Hstores.
  destruct (relocate_animals_returns σ1 animals) as (σ1' & occupied1 & Hrun1).
  destruct (relocate_animals_returns σ2 animals) as (σ2' & occupied2 & Hrun2).
  pose proof (relocate_loop_same ADJACENT_STATES animals animals σ1 σ2 ∅ Hstores) as Hsame.
  unfold relocate_animals, relocate_animals_in in Hrun1, Hrun2.
  rewrite Hrun1, Hrun2 in Hsame. destruct Hsame as [Hstores' <-].
  exists σ1', σ2', occupied1. split_and!; [done..| |].
  - by apply states_same.
  - by apply states_same, objects_same.
Qed.

Lemma relocation_deterministic_witness :
  ∃ σ1' σ2' occupied,
    relocate_animals [init "Bilby" "desert" "Quoll"; init "Quoll" "forest" "Dingo"] [0; 1]
      = Ok (σ1', occupied) ∧
    relocate_animals [init "Bilby" "scrub" "Quoll"; init "Quoll" "forest" "Dingo"] [0; 1]
      = Ok (σ2', occupied) ∧
    get_state <$> σ1' = get_state <$> σ2' ∧
    get_state <$> objects σ1' [0; 1] = get_state <$> objects σ2' [0; 1].
Proof.
  apply relocation_deterministic.
  by_evaluation.
Defined.

(** ** Runs *)

(** The scenario of the specification on the module's graph: the first
    animal takes NSW; the second, which the first names as its threat, is
    kept out of QLD and VIC by check (3) and takes TAS; the third takes
    QLD. *)
Example run_three :
  final_states ADJACENT_STATES
    [init "A" "h" "B"; init "B" "h" "-"; init "C" "h" "-"] [0; 1; 2]
  = Some ["NSW"; "TAS"; "QLD"].
Proof. vm_compute. reflexivity. Qed.

(** An animal that names itself as its threat and enters in 'ACT' is
    placed like any other. *)
Example run_self_threat :
  final_states ADJACENT_STATES [init "E" "h" "E"] [0] = Some ["NSW"].
Proof. vm_compute. reflexivity. Qed.

(** The eighth animal and those after it find every state taken. *)
Example run_nine :
  final_states ADJACENT_STATES (replicate 9 (init "X" "h" "-")) (seq 0 9)
  = Some ["NSW"; "QLD"; "VIC"; "TAS"; "SA"; "NT"; "WA"; "ACT"; "ACT"].
Proof. vm_compute. reflexivity. Qed.

(** An object listed twice is placed twice: both states stay in the table,
    and the object is in the second. *)
Example run_listed_twice :
  relocate_animals [init "Bilby" "desert" "Quoll"; init "Quoll" "forest" "Dingo"] [0; 1; 0]
  = Ok ([mkAnimal "Bilby" "desert" "Quoll" "QLD"; mkAnimal "Quoll" "forest" "Dingo" "TAS"],
        list_to_map [("NSW", "Bilby"); ("TAS", "Quoll"); ("QLD", "Bilby")]).
Proof. vm_compute. reflexivity. Qed.

(** With a name used twice the lookup by name finds the first animal of
    that name: the second "X", in QLD, has "B" as its threat, yet "B" is
    placed next to it in SA. *)
Example run_equal_names :
  final_states ADJACENT_STATES
    [init "T" "h" "-"; init "X" "h" "T"; init "X" "h" "B"; init "F" "h" "-";
     init "B" "h" "-"] [0; 1; 2; 3; 4]
  = Some ["NSW"; "TAS"; "QLD"; "VIC"; "SA"].
Proof. vm_compute. reflexivity. Qed.

(** A state that is not a key raises only when the loop reaches it: two
    animals never try WA. *)
Example run_without_WA :
  final_states (delete "WA" ADJACENT_STATES)
    [init "Bilby" "desert" "Quoll"; init "Quoll" "forest" "Dingo"] [0; 1]
  = Some ["NSW"; "TAS"].
Proof. vm_compute. reflexivity. Qed.

(** * More of the module *)

(** ** What the run writes *)

Lemma objects_app σ refs1 refs2 :
  objects σ (refs1 ++ refs2) = objects σ refs1 ++ objects σ refs2.
Proof. apply omap_app. Qed.

(** Writing the state of one object leaves the names of the listed animals
    as they are, and the objects of the references that do not list it. *)
Lemma names_alter_state σ r st refs :
  name <$> objects (alter (λ a, with_state a st) r σ) refs = name <$> objects σ refs.
Proof.
  induction refs as [|r' refs IH]; [done|].
  rewrite !objects_cons.
  destruct (decide (r = r')) as [->|Hne].
  - rewrite list_lookup_alter_eq.
    destruct (σ !! r') as [a|]; simpl; [|done]. f_equal. exact IH.
  - rewrite list_lookup_alter_ne by done.
    destruct (σ !! r') as [a|]; simpl; [|done]. f_equal. exact IH.
Qed.

Lemma objects_alter_notin σ r f refs :
  r ∉ refs → objects (alter f r σ) refs = objects σ refs.
Proof.
  induction refs as [|r' refs IH]; [done|]. intros Hr.
  rewrite !objects_cons, list_lookup_alter_ne by set_solver.
  rewrite IH by set_solver. done.
Qed.

Lemma relocate_one_names graph animals σ occupied r σ' occupied' refs :
  relocate_one graph animals σ occupied r = Ok (σ', occupied') →
  name <$> objects σ' refs = name <$> objects σ refs.
Proof.
  intros [(_ & -> & _) | (animal & _ & [(st & _ & -> & _) | (_ & -> & _)])]%relocate_one_inv;
    [done|apply names_alter_state..].
Qed.

Lemma relocate_one_valid graph animals σ occupied r σ' occupied' r' :
  relocate_one graph animals σ occupied r = Ok (σ', occupied') →
  is_Some (σ !! r') → is_Some (σ' !! r').
Proof.
  intros Hone Hr'. apply lookup_lt_is_Some.
  rewrite (relocate_one_length _ _ _ _ _ _ _ Hone). by apply lookup_lt_is_Some.
Qed.

(** [relocate_animals] writes nothing but the states of the listed
    animals: the store keeps its objects, every object keeps its name, its
    habitat and its threat, and an object that is not listed is not
    written at all. *)
Theorem only_listed_states_written (σ : store) (animals : list nat) :
  ∃ σ' occupied,
    relocate_animals σ animals = Ok (σ', occupied) ∧
    length σ' = length σ ∧
    ∀ r a', σ' !! r = Some a' →
      ∃ a, σ !! r = Some a ∧
           name a' = name a ∧ habitat a' = habitat a ∧ threat a' = threat a ∧
           (r ∉ animals → a' = a).
Proof.
  destruct (relocate_animals_returns σ animals) as (σ' & occupied & Hrun).
  exists σ', occupied. split_and!; [done| |].
  - by eapply relocate_loop_length.
  - intros r a' Ha'.
    destruct (relocate_loop_fields _ _ _ _ _ _ _ _ _ Hrun Ha') as (a & Ha & Hn & Hh & Ht).
    exists a. split_and!; [done..|]. intros Hr.
    rewrite (relocate_loop_others _ _ _ _ _ _ _ _ Hrun Hr) in Ha'. congruence.
Qed.

(** ** Nobody ends next to its threat *)

(** The graph of the module is symmetric. *)
Lemma adjacent_to_sym s t : t ∈ adjacent_to s → s ∈ adjacent_to t.
Proof.
  assert (Hall : map_Forall (λ s adjacent, Forall (λ t, s ∈ adjacent_to t) adjacent)
                   ADJACENT_STATES) by by_evaluation.
  unfold adjacent_to at 1. destruct (ADJACENT_STATES !! s) as [adjacent|] eqn:Hs; simpl.
  - intros Ht. exact (proj1 (Forall_forall _ _) (Hall _ _ Hs) _ Ht).
  - intros Ht. by apply elem_of_nil in Ht.
Qed.

Lemma adjacent_to_ACT st : "ACT" ∉ adjacent_to st.
Proof.
  unfold adjacent_to. destruct (ADJACENT_STATES !! st) as [adjacent|] eqn:Hst; simpl.
  - exact (ACT_not_adjacent _ _ Hst).
  - apply not_elem_of_nil.
Qed.

(** What a candidate that passes the three checks has passed. *)
Lemma is_safe_true_inv graph σ animals occupied animal st :
  is_safe graph σ animals occupied animal st = Ok true →
  same_state (next_named σ animals (threat animal)) st = false ∧
  next_to_threat graph (next_named σ animals (threat animal)) st = false ∧
  ∃ adjacent,
    graph !! st = Some adjacent ∧
    existsb (threatens σ animals occupied animal) adjacent = false.
Proof.
  unfold is_safe, is_threat_nearby.
  destruct (same_state _ _); [done|].
  destruct (next_to_threat _ _ _); [done|].
  destruct (graph !! st) as [adjacent|]; [|done]. simpl.
  intros [= Hnearby%negb_true_iff]. split_and!; [done..|]. by exists adjacent.
Qed.

Section Apart.

Variable animals : list nat.

Lemma apart_place done σ occupied r animal st :
  NoDup (name <$> objects σ animals) →
  done ++ [r] ⊆ animals →
  r ∉ done →
  σ !! r = Some animal →
  processed done σ occupied →
  is_safe ADJACENT_STATES σ animals occupied animal st = Ok true →
  apart done σ →
  apart (done ++ [r]) (alter (λ a, with_state a st) r σ).
Proof.
  intros Hnames Hsub Hfresh Hr [Hsettled _ _ _] Hsafe Hapart.
  apply is_safe_true_inv in Hsafe as (Hsame & Hnext & adjacent & Hst & Hnearby).
  assert (Hfind : ∀ r' b, r' ∈ done → σ !! r' = Some b →
            next_named σ animals (name b) = Some b).
  { intros r' b Hr' Hb. apply next_named_unique; [done|].
    apply (elem_of_objects σ animals r'); [set_solver | done]. }
  assert (Hold : ∀ r' b, r' ∈ done ++ [r] → r' ≠ r →
            alter (λ a, with_state a st) r σ !! r' = Some b →
            r' ∈ done ∧ σ !! r' = Some b).
  { intros r' b [Hin | ->%list_elem_of_singleton]%elem_of_app Hne; [|done].
    by rewrite list_lookup_alter_ne by done. }
  assert (Hnew : ∀ b, alter (λ a, with_state a st) r σ !! r = Some b →
            b = with_state animal st).
  { intros b. rewrite list_lookup_alter_eq, Hr. by intros [= <-]. }
  intros rA rB A B HrA HrB Hne HA HB Hthreat HactA HactB.
  destruct (decide (rA = r)) as [->|HneA]; destruct (decide (rB = r)) as [->|HneB];
    [done| | |].
  - (* the animal being placed has a processed animal as its threat *)
    destruct (Hold rB B HrB HneB HB) as [HinB HB'].
    rewrite (Hnew A HA) in *. simpl in Hthreat. simpl.
    rewrite Hthreat, (Hfind rB B HinB HB') in Hnext. simpl in Hnext.
    apply bool_decide_eq_false in Hnext. rewrite Hst in Hnext. simpl in Hnext.
    assert (Hdir : get_state B ∉ adjacent_to st).
    { unfold adjacent_to. by rewrite Hst. }
    split; [done|]. intros Hback. apply Hdir. by apply adjacent_to_sym.
  - (* a processed animal has the animal being placed as its threat *)
    destruct (Hold rA A HrA HneA HA) as [HinA HA'].
    rewrite (Hnew B HB) in *. simpl in Hthreat. simpl.
    assert (Hdir : get_state A ∉ adjacent_to st).
    { unfold adjacent_to. rewrite Hst. simpl. intros Hadj.
      assert (existsb (threatens σ animals occupied animal) adjacent = true) as Hyes;
        [|congruence].
      apply existsb_exists. exists (get_state A). split; [by apply list_elem_of_In|].
      apply threatens_victim with A; [|by eapply Hfind|done].
      by destruct (Hsettled rA A HinA HA') as [|[_ ?]]. }
    split; [|done]. intros Hback. apply Hdir. by apply adjacent_to_sym.
  - destruct (Hold rA A HrA HneA HA) as [HinA HA'].
    destruct (Hold rB B HrB HneB HB) as [HinB HB']. by apply (Hapart rA rB A B).
Qed.

Lemma apart_fail done σ r animal :
  σ !! r = Some animal →
  apart done σ →
  apart (done ++ [r]) (alter (λ a, with_state a "ACT") r σ).
Proof.
  intros Hr Hapart.
  assert (Hold : ∀ r' b, r' ∈ done ++ [r] → r' ≠ r →
            alter (λ a, with_state a "ACT") r σ !! r' = Some b →
            r' ∈ done ∧ σ !! r' = Some b).
  { intros r' b [Hin | ->%list_elem_of_singleton]%elem_of_app Hne; [|done].
    by rewrite list_lookup_alter_ne by done. }
  assert (Hnew : ∀ b, alter (λ a, with_state a "ACT") r σ !! r = Some b →
            get_state b = "ACT").
  { intros b. rewrite list_lookup_alter_eq, Hr. by intros [= <-]. }
  intros rA rB A B HrA HrB Hne HA HB Hthreat HactA HactB.
  destruct (decide (rA = r)) as [->|HneA]; [by destruct HactA; apply Hnew|].
  destruct (decide (rB = r)) as [->|HneB]; [by destruct HactB; apply Hnew|].
  destruct (Hold rA A HrA HneA HA) as [HinA HA'].
  destruct (Hold rB B HrB HneB HB) as [HinB HB']. by apply (Hapart rA rB A B).
Qed.

Lemma apart_skip done σ r :
  σ !! r = None → apart done σ → apart (done ++ [r]) σ.
Proof.
  intros Hr Hapart rA rB A B HrA HrB Hne HA HB.
  apply elem_of_app in HrA as [HrA | ->%list_elem_of_singleton]; [|congruence].
  apply elem_of_app in HrB as [HrB | ->%list_elem_of_singleton]; [|congruence].
  by apply (Hapart rA rB A B).
Qed.

Lemma relocate_loop_apart todo done σ occupied σ' occupied' :
  NoDup (name <$> objects σ animals) →
  NoDup (done ++ todo) →
  done ++ todo ⊆ animals →
  processed done σ occupied →
  apart done σ →
  relocate_loop ADJACENT_STATES animals todo σ occupied = Ok (σ', occupied') →
  apart (done ++ todo) σ'.
Proof.
  revert done σ occupied.
  induction todo as [|r todo IH]; intros done σ occupied Hnames Hnodup Hsub Hproc Hapart.
  { intros [= <- <-]. by rewrite app_nil_r. }
  intros (σ1 & occupied1 & Hone & Hloop)%relocate_loop_cons_inv.
  rewrite (assoc_L _ done [r] todo : done ++ r :: todo = (done ++ [r]) ++ todo) in *.
  apply (IH (done ++ [r]) σ1 occupied1); [| done | done | | | done].
  - by rewrite (relocate_one_names _ _ _ _ _ _ _ _ Hone).
  - by eapply relocate_one_processed.
  - apply NoDup_app in Hnodup as [[_ [Hfresh _]]%NoDup_app _].
    assert (r ∉ done) by (intros ?; apply (Hfresh r); set_solver).
    apply relocate_one_inv in Hone
      as [(Hr & -> & ->) | (animal & Hr & [(st & Htry & -> & ->) | (_ & -> & ->)])].
    + by apply apart_skip.
    + apply try_states_Some in Htry as (_ & _ & _ & _ & _ & Hsafe).
      eapply apart_place; try done. set_solver.
    + by eapply apart_fail.
Qed.

End Apart.

(** With unique names, when [relocate_animals] is over no placed animal is
    in the state of the animal it names as its threat, nor in a state
    adjacent to it, in either direction of the graph. This is the aim that
    the docstring of the function states; it holds whatever states the
    animals enter with. *)
Theorem nobody_next_to_threat (σ : store) (animals : list nat) (rA rB : nat) :
  Forall (λ r, is_Some (σ !! r)) animals →
  NoDup (name <$> objects σ animals) →
  rA ∈ animals → rB ∈ animals → rA ≠ rB →
  ∃ σ' occupied A B,
    relocate_animals σ animals = Ok (σ', occupied) ∧
    σ' !! rA = Some A ∧ σ' !! rB = Some B ∧
    (threat A = name B → get_state A ≠ "ACT" →
       get_state B ≠ get_state A ∧
       get_state B ∉ adjacent_to (get_state A) ∧
       get_state A ∉ adjacent_to (get_state B)).
Proof.
  intros Hvalid Hnames HrA HrB Hne.
  assert (HobjA : is_Some (σ !! rA)) by exact (proj1 (Forall_forall _ _) Hvalid _ HrA).
  assert (HobjB : is_Some (σ !! rB)) by exact (proj1 (Forall_forall _ _) Hvalid _ HrB).
  destruct (relocate_animals_returns σ animals) as (σ' & occupied & Hrun).
  destruct (relocate_animals_lookup _ _ _ _ rA Hrun HobjA) as [A HA].
  destruct (relocate_animals_lookup _ _ _ _ rB Hrun HobjB) as [B HB].
  exists σ', occupied, A, B. split_and!; [done..|].
  intros Hthreat HactA.
  destruct (relocate_animals_processed _ _ _ _ _ Hrun) as [_ Hdistinct _ _].
  destruct (decide (get_state B = "ACT")) as [HactB|HactB].
  { rewrite HactB. split_and!; [done | apply adjacent_to_ACT |].
    intros Hadj%adjacent_to_sym. by apply adjacent_to_ACT in Hadj. }
  split.
  { intros Heq. apply Hne. symmetry. by eapply (Hdistinct rB rA B A). }
  assert (Hapart : apart ([] ++ animals) σ').
  { apply (relocate_loop_apart animals animals [] σ ∅ σ' occupied); try done.
    - by apply (unique_names_NoDup σ).
    - apply processed_nil.
    - intros ? ? ? ? Hin. by apply elem_of_nil in Hin. }
  by apply (Hapart rA rB A B).
Qed.

Lemma nobody_next_to_threat_witness :
  ∃ σ' occupied A B,
    relocate_animals [init "Bilby" "desert" "Quoll"; init "Quoll" "forest" "Dingo"] [0; 1]
      = Ok (σ', occupied) ∧
    σ' !! 0 = Some A ∧ σ' !! 1 = Some B ∧
    (threat A = name B → get_state A ≠ "ACT" →
       get_state B ≠ get_state A ∧
       get_state B ∉ adjacent_to (get_state A) ∧
       get_state A ∉ adjacent_to (get_state B)).
Proof.
  apply nobody_next_to_threat.
  - by_evaluation.
  - by_evaluation.
  - by_evaluation.
  - by_evaluation.
  - lia.
Defined.

(** ** The count that [main] prints *)

Lemma relocated_count_app σ refs1 refs2 :
  relocated_count σ (refs1 ++ refs2) = relocated_count σ refs1 + relocated_count σ refs2.
Proof. unfold relocated_count. by rewrite objects_app, filter_app, length_app. Qed.

Lemma relocated_count_alter_notin σ r f refs :
  r ∉ refs → relocated_count (alter f r σ) refs = relocated_count σ refs.
Proof. intros Hr. unfold relocated_count. by rewrite objects_alter_notin. Qed.

Lemma relocated_count_written σ r animal st :
  σ !! r = Some animal →
  relocated_count (alter (λ a, with_state a st) r σ) [r] =
  if decide (st = "ACT") then 0 else 1.
Proof.
  intros Hr. unfold relocated_count. rewrite objects_cons, list_lookup_alter_eq, Hr.
  simpl. rewrite filter_cons. simpl.
  destruct (decide (st = "ACT")) as [->|Hne].
  - by rewrite decide_False by (by intros []).
  - by rewrite decide_True.
Qed.

Lemma relocated_count_le σ refs : (relocated_count σ refs ≤ length refs)%nat.
Proof.
  unfold relocated_count. etrans; [apply length_filter|].
  induction refs as [|r refs IH]; [done|].
  rewrite objects_cons. destruct (σ !! r); simpl in *; lia.
Qed.

Lemma table_size_le (occupied : gmap string string) :
  (∀ st, is_Some (occupied !! st) → st ∈ state_order) → (size occupied ≤ 7)%nat.
Proof.
  intros Hkeys. rewrite <- size_dom.
  change 7 with (length state_order).
  rewrite <- (size_list_to_set (C := gset string) state_order)
    by (by_evaluation).
  apply subseteq_size. intros st Hst%elem_of_dom.
  apply elem_of_list_to_set. by apply Hkeys.
Qed.

Lemma relocate_loop_count animals todo done σ occupied σ' occupied' :
  NoDup (done ++ todo) →
  relocated_count σ done = size occupied →
  relocate_loop ADJACENT_STATES animals todo σ occupied = Ok (σ', occupied') →
  relocated_count σ' (done ++ todo) = size occupied'.
Proof.
  revert done σ occupied.
  induction todo as [|r todo IH]; intros done σ occupied Hnodup Hcount.
  { intros [= <- <-]. by rewrite app_nil_r. }
  intros (σ1 & occupied1 & Hone & Hloop)%relocate_loop_cons_inv.
  rewrite (assoc_L _ done [r] todo : done ++ r :: todo = (done ++ [r]) ++ todo) in *.
  apply (IH (done ++ [r]) σ1 occupied1); [done| |done].
  apply NoDup_app in Hnodup as [[_ [Hfresh _]]%NoDup_app _].
  assert (r ∉ done) by (intros ?; apply (Hfresh r); set_solver).
  rewrite relocated_count_app.
  apply relocate_one_inv in Hone
    as [(Hr & -> & ->) | (animal & Hr & [(st & Htry & -> & ->) | (_ & -> & ->)])].
  - unfold relocated_count at 2. rewrite objects_cons, Hr. simpl. lia.
  - apply try_states_elem_of in Htry as (Hin & Hfree & _).
    rewrite relocated_count_alter_notin, (relocated_count_written σ r animal st) by done.
    rewrite decide_False by by apply state_order_ACT.
    rewrite map_size_insert_None by done. lia.
  - rewrite relocated_count_alter_notin, (relocated_count_written σ r animal "ACT") by done.
    simpl. lia.
Qed.

Lemma relocate_count (σ : store) (animals : list nat) :
  NoDup animals →
  ∃ σ' occupied,
    relocate_animals σ animals = Ok (σ', occupied) ∧
    relocated_count σ' animals = size occupied ∧
    (relocated_count σ' animals ≤ 7)%nat ∧
    (relocated_count σ' animals ≤ length animals)%nat.
Proof.
  intros Hnodup.
  destruct (relocate_animals_returns σ animals) as (σ' & occupied & Hrun).
  exists σ', occupied.
  assert (Hcount : relocated_count σ' animals = size occupied).
  { apply (relocate_loop_count animals animals [] σ ∅ σ' occupied); [done| |done].
    by rewrite map_size_empty. }
  split_and!; [done..| |apply relocated_count_le].
  rewrite Hcount. apply table_size_le.
  by destruct (relocate_animals_processed _ _ _ _ _ Hrun).
Qed.

(** When no object is listed twice, the count of relocated animals that
    [main] prints after [relocate_animals] is the number of entries of the
    [occupied] table; it is at most 7, the number of states, and at most
    the number of animals. *)
Theorem relocated_count_is_table_size (σ : store) (animals : list nat) :
  NoDup animals →
  ∃ σ' occupied,
    relocate_animals σ animals = Ok (σ', occupied) ∧
    relocated_count σ' animals = size occupied ∧
    (relocated_count σ' animals ≤ 7)%nat ∧
    (relocated_count σ' animals ≤ length animals)%nat.
Proof. apply relocate_count. Qed.

Lemma relocated_count_is_table_size_witness :
  ∃ σ' occupied,
    relocate_animals (replicate 9 (init "Emu" "plains" "-")) (seq 0 9)
      = Ok (σ', occupied) ∧
    relocated_count σ' (seq 0 9) = size occupied ∧
    (relocated_count σ' (seq 0 9) ≤ 7)%nat ∧
    (relocated_count σ' (seq 0 9) ≤ length (seq 0 9))%nat.
Proof.
  apply relocated_count_is_table_size.
  by_evaluation.
Defined.

(** ** Animals that the checks do not constrain *)

Lemma next_named_Some σ animals nm a :
  next_named σ animals nm = Some a → a ∈ objects σ animals ∧ name a = nm.
Proof.
  unfold next_named. intros Hhead%head_Some_elem_of.
  apply list_elem_of_filter in Hhead as [Hname Hin]. done.
Qed.

Lemma next_named_None σ animals nm :
  (∀ b, b ∈ objects σ animals → name b ≠ nm) → next_named σ animals nm = None.
Proof.
  intros Hno. destruct (next_named σ animals nm) as [a|] eqn:Hfind; [|done].
  apply next_named_Some in Hfind as [Hin Hname]. by destruct (Hno a Hin).
Qed.

(** Every state that is a key is safe for an unconstrained animal. *)
Lemma unconstrained_safe graph σ animals occupied animal st :
  unconstrained σ animals animal →
  is_Some (graph !! st) →
  is_safe graph σ animals occupied animal st = Ok true.
Proof.
  intros Hfree [adjacent Hst]. unfold is_safe, is_threat_nearby.
  rewrite next_named_None by (intros b Hb ?; by destruct (Hfree b Hb)).
  simpl. rewrite Hst. simpl. do 2 f_equal. apply negb_true_iff.
  apply not_true_iff_false. intros (adj_state & _ & Hyes)%existsb_exists.
  unfold threatens in Hyes.
  destruct (occupied !! adj_state) as [nm|]; [|done].
  destruct (next_named σ animals nm) as [b|] eqn:Hb; [|done].
  apply next_named_Some in Hb as [Hb _].
  apply bool_decide_eq_true in Hyes. by destruct (Hfree b Hb).
Qed.

Lemma try_states_all_safe graph σ animals occupied animal order :
  Forall (λ st, is_safe graph σ animals occupied animal st = Ok true) order →
  try_states graph σ animals occupied animal order =
  Ok (head (filter (λ st, occupied !! st = None) order)).
Proof.
  induction 1 as [|st order Hsafe _ IH]; [done|].
  rewrite try_states_cons, filter_cons, Hsafe, IH. simpl.
  destruct (occupied !! st) as [nm|] eqn:Hst.
  - rewrite bool_decide_eq_true_2 by by eexists. by rewrite decide_False.
  - rewrite bool_decide_eq_false_2 by by intros [??]. by rewrite decide_True.
Qed.

Lemma first_free_free occupied st :
  first_free occupied = Some st → st ∈ state_order ∧ occupied !! st = None.
Proof.
  unfold first_free. intros Hhead%head_Some_elem_of.
  apply list_elem_of_filter in Hhead as [Hfree Hin]. done.
Qed.

Lemma relocate_one_unconstrained (σ : store) (animals : list nat)
    (occupied : gmap string string) (r : nat) (animal : FictionalAnimal) :
  σ !! r = Some animal →
  unconstrained σ animals animal →
  relocate_one ADJACENT_STATES animals σ occupied r =
  Ok (alter (λ a, with_state a (default "ACT" (first_free occupied))) r σ,
      from_option (λ st, <[st := name animal]> occupied) occupied (first_free occupied)).
Proof.
  intros Hr Hfree. unfold relocate_one. rewrite Hr.
  rewrite try_states_all_safe.
  2:{ eapply Forall_impl; [apply state_order_keys|]. intros st Hst.
      by apply unconstrained_safe. }
  fold (first_free occupied). simpl.
  destruct (first_free occupied) as [st|] eqn:Hfirst; simpl.
  - assert (alter (λ a, set_state ADJACENT_STATES a st) r σ
            = alter (λ a, with_state a st) r σ) as ->; [|done].
    apply list_alter_ext; [|done]. intros a _. apply set_state_key.
    apply first_free_free in Hfirst as [Hin _].
    exact (proj1 (Forall_forall _ _) state_order_keys _ Hin).
  - assert (alter (λ a, set_state ADJACENT_STATES a "ACT") r σ
            = alter (λ a, with_state a "ACT") r σ) as ->; [|done].
    apply list_alter_ext; [|done]. intros a _. apply set_state_ACT.
Qed.

(** An animal whose threat names no listed animal, and that no listed
    animal names as its threat, is put in the first state of the order
    that the table does not have, and in 'ACT' when the table has all
    seven. *)
Theorem unconstrained_takes_first_free (σ : store) (animals : list nat)
    (occupied : gmap string string) (r : nat) (animal : FictionalAnimal) :
  σ !! r = Some animal →
  unconstrained σ animals animal →
  relocate_one ADJACENT_STATES animals σ occupied r =
  Ok (alter (λ a, with_state a (default "ACT" (first_free occupied))) r σ,
      from_option (λ st, <[st := name animal]> occupied) occupied (first_free occupied)).
Proof. apply relocate_one_unconstrained. Qed.

Lemma unconstrained_takes_first_free_witness :
  let σ := [mkAnimal "Emu" "plains" "-" "NSW"; init "Bilby" "desert" "Quoll"] in
  let occupied : gmap string string := {[ "NSW" := "Emu" ]} in
  let bilby := init "Bilby" "desert" "Quoll" in
  relocate_one ADJACENT_STATES [0; 1] σ occupied 1 =
  Ok (alter (λ a, with_state a (default "ACT" (first_free occupied))) 1 σ,
      from_option (λ st, <[st := name bilby]> occupied) occupied (first_free occupied)).
Proof.
  intros σ occupied bilby.
  apply (unconstrained_takes_first_free σ [0; 1] occupied 1 bilby).
  - reflexivity.
  - intros b Hb.
    assert (Hall : Forall (λ b, threat bilby ≠ name b ∧ threat b ≠ name bilby)
                     (objects σ [0; 1])) by by_evaluation.
    exact (proj1 (Forall_forall _ _) Hall b Hb).
Defined.

(** ** A list without threats *)

Lemma head_filter_take (l : list string) (k : nat) (P : string → Prop)
    `{!∀ x, Decision (P x)} :
  NoDup l →
  (∀ x, x ∈ l → (P x ↔ x ∉ take k l)) →
  head (filter P l) = l !! k.
Proof.
  revert k. induction l as [|x l IH]; intros k Hnodup HP; [done|].
  apply NoDup_cons in Hnodup as [Hx Hnodup]. rewrite filter_cons.
  destruct k as [|k].
  - rewrite decide_True; [done|]. apply HP; [set_solver|]. simpl. apply not_elem_of_nil.
  - rewrite decide_False.
    2:{ intros HPx. apply HP in HPx; [|set_solver]. apply HPx. simpl. set_solver. }
    simpl. apply IH; [done|]. intros y Hy. rewrite HP by set_solver. simpl.
    split; [set_solver|]. intros Hny [->|?]%elem_of_cons; done.
Qed.

Lemma first_free_take (occupied : gmap string string) (k : nat) :
  (∀ st, st ∈ state_order → (occupied !! st = None ↔ st ∉ take k state_order)) →
  first_free occupied = state_order !! k.
Proof.
  intros Hocc. unfold first_free. apply head_filter_take; [by_evaluation | done].
Qed.

Lemma objects_alter_fields σ r st animals b' :
  b' ∈ objects (alter (λ a, with_state a st) r σ) animals →
  ∃ b, b ∈ objects σ animals ∧ name b' = name b ∧ threat b' = threat b.
Proof.
  intros (r' & Hr' & Hb')%list_elem_of_omap.
  destruct (decide (r = r')) as [->|Hne].
  - rewrite list_lookup_alter_eq in Hb'.
    destruct (σ !! r') as [b|] eqn:Hb; [|done]. injection Hb' as <-.
    exists b. split; [|done]. by apply (elem_of_objects σ animals r').
  - rewrite list_lookup_alter_ne in Hb' by done.
    exists b'. split; [|done]. by apply (elem_of_objects σ animals r').
Qed.

Lemma no_threats_alter σ r st animals :
  no_threats σ animals → no_threats (alter (λ a, with_state a st) r σ) animals.
Proof.
  intros Hno a' b' (a & Ha & _ & Hta)%objects_alter_fields
    (b & Hb & Hnb & _)%objects_alter_fields.
  rewrite Hta, Hnb. by apply Hno.
Qed.

Lemma no_threats_unconstrained σ animals r animal :
  no_threats σ animals → r ∈ animals → σ !! r = Some animal →
  unconstrained σ animals animal.
Proof.
  intros Hno Hr Hanimal b Hb.
  assert (animal ∈ objects σ animals) by by apply (elem_of_objects σ animals r).
  split; by apply Hno.
Qed.

Lemma relocate_loop_in_order animals todo done σ occupied σ' occupied' :
  NoDup (done ++ todo) →
  todo ⊆ animals →
  Forall (λ r, is_Some (σ !! r)) todo →
  no_threats σ animals →
  (∀ st, st ∈ state_order →
     (occupied !! st = None ↔ st ∉ take (length done) state_order)) →
  (∀ i r a, done !! i = Some r → σ !! r = Some a →
     get_state a = default "ACT" (state_order !! i)) →
  relocate_loop ADJACENT_STATES animals todo σ occupied = Ok (σ', occupied') →
  ∀ i r a, (done ++ todo) !! i = Some r → σ' !! r = Some a →
    get_state a = default "ACT" (state_order !! i).
Proof.
  revert done σ occupied.
  induction todo as [|r todo IH];
    intros done σ occupied Hnodup Hsub Hvalid Hno Hocc Hdone.
  { intros [= <- <-]. by rewrite app_nil_r. }
  apply Forall_cons in Hvalid as [[animal Hr] Hvalid].
  assert (Hin : r ∈ animals) by set_solver.
  rewrite relocate_loop_cons.
  rewrite (relocate_one_unconstrained σ animals occupied r animal Hr)
    by exact (no_threats_unconstrained σ animals r animal Hno Hin Hr).
  simpl. rewrite (first_free_take occupied (length done) Hocc).
  rewrite (assoc_L _ done [r] todo : done ++ r :: todo = (done ++ [r]) ++ todo) in *.
  assert (Hfresh : r ∉ done).
  { apply NoDup_app in Hnodup as [[_ [Hfresh _]]%NoDup_app _].
    intros ?. apply (Hfresh r); set_solver. }
  apply IH; [done | set_solver | | by apply no_threats_alter | |].
  - eapply Forall_impl; [exact Hvalid|]. intros r' Hr'. simpl in Hr'.
    apply lookup_lt_is_Some. rewrite length_alter. by apply lookup_lt_is_Some.
  - intros st Hst. rewrite length_app. cbn [length].
    replace (length done + 1) with (S (length done)) by lia.
    destruct (state_order !! length done) as [st0|] eqn:Hk; cbn [from_option].
    + rewrite (take_S_r _ _ _ Hk), not_elem_of_app, <- Hocc by done.
      destruct (decide (st0 = st)) as [->|Hne].
      * rewrite lookup_insert_eq. split; [done|]. intros [_ Hst0]. set_solver.
      * rewrite lookup_insert_ne by done. split; [|by intros [? _]].
        intros Hfree. split; [done|]. set_solver.
    + apply lookup_ge_None in Hk.
      rewrite take_ge by lia. rewrite Hocc by done. by rewrite take_ge.
  - intros i r' a Hi Ha. apply lookup_snoc_Some in Hi as [[Hlt Hi] | [-> ->]].
    + assert (r' ≠ r) by (intros ->; apply Hfresh; by eapply list_elem_of_lookup_2).
      rewrite list_lookup_alter_ne in Ha by done. eauto.
    + rewrite list_lookup_alter_eq, Hr in Ha. by injection Ha as <-.
Qed.

(** When no listed animal has a listed animal as its threat and no object
    is listed twice, the animals fill the states in the order of the list:
    the animal at position [i] ends in the state at position [i] of NSW,
    QLD, VIC, TAS, SA, NT, WA, and those from the eighth on end in
    'ACT'. *)
Theorem no_threats_fill_in_order (σ : store) (animals : list nat) (i r : nat) :
  NoDup animals →
  Forall (λ r, is_Some (σ !! r)) animals →
  no_threats σ animals →
  animals !! i = Some r →
  ∃ σ' occupied a,
    relocate_animals σ animals = Ok (σ', occupied) ∧
    σ' !! r = Some a ∧
    get_state a = default "ACT" (state_order !! i).
Proof.
  intros Hnodup Hvalid Hno Hi.
  destruct (relocate_animals_returns σ animals) as (σ' & occupied & Hrun).
  assert (Hobj : is_Some (σ !! r)).
  { apply (proj1 (Forall_forall _ _) Hvalid). by eapply list_elem_of_lookup_2. }
  destruct (relocate_animals_lookup _ _ _ _ r Hrun Hobj) as [a Ha].
  exists σ', occupied, a. split_and!; [done..|].
  apply (relocate_loop_in_order animals animals [] σ ∅ σ' occupied) with r;
    try done.
  - intros st _. rewrite lookup_empty. simpl. split; [intros _; apply not_elem_of_nil|done].
Qed.

Lemma no_threats_fill_in_order_witness :
  ∃ σ' occupied a,
    relocate_animals
      [init "Emu" "plains" "Dingo"; init "Bilby" "desert" "Fox"; init "Quoll" "forest" "Cat"]
      [0; 1; 2] = Ok (σ', occupied) ∧
    σ' !! 2 = Some a ∧
    get_state a = default "ACT" (state_order !! 2).
Proof.
  apply no_threats_fill_in_order.
  - by_evaluation.
  - by_evaluation.
  - intros a b Ha Hb.
    assert (Hall : Forall (λ a, Forall (λ b, threat a ≠ name b)
                     (objects [init "Emu" "plains" "Dingo"; init "Bilby" "desert" "Fox";
                               init "Quoll" "forest" "Cat"] [0; 1; 2]))
                     (objects [init "Emu" "plains" "Dingo"; init "Bilby" "desert" "Fox";
                               init "Quoll" "forest" "Cat"] [0; 1; 2])) by by_evaluation.
    exact (proj1 (Forall_forall _ _) (proj1 (Forall_forall _ _) Hall a Ha) b Hb).
  - reflexivity.
Defined.

(** ** Animals added at the end of the list *)

Lemma next_named_app σ refs1 refs2 nm :
  next_named σ (refs1 ++ refs2) nm =
  match next_named σ refs1 nm with
  | Some a => Some a
  | None => next_named σ refs2 nm
  end.
Proof.
  unfold next_named. rewrite objects_app, filter_app.
  by destruct (filter _ (objects σ refs1)).
Qed.

Lemma next_named_is_Some σ animals nm :
  is_Some (next_named σ animals nm) ↔ nm ∈ name <$> objects σ animals.
Proof.
  split.
  - intros [a [Hin <-]%next_named_Some]. apply list_elem_of_fmap. by exists a.
  - intros (a & -> & Hin)%list_elem_of_fmap.
    destruct (next_named σ animals (name a)) as [b|] eqn:Hb; [by eexists|].
    unfold next_named in Hb. apply head_None in Hb.
    by destruct (filter_nil_not_elem_of _ _ a Hb eq_refl).
Qed.

Section Appended.

Variable animals more : list nat.

Lemma next_named_added σ occupied nm t :
  added_idle animals more σ occupied →
  next_named σ animals nm = None →
  next_named σ more nm = Some t →
  get_state t = "ACT".
Proof.
  intros [Hidle _] Hnone [Hin Hname]%next_named_Some.
  apply list_elem_of_omap in Hin as (r & Hr & Ht).
  apply (Hidle r t Hr); [|done]. intros Hlisted.
  assert (is_Some (next_named σ animals nm)) as [? ?]; [|congruence].
  apply next_named_is_Some. rewrite <- Hname. by apply (elem_of_names σ animals r).
Qed.

Lemma threatens_added σ occupied animal adj_state :
  added_idle animals more σ occupied →
  threatens σ (animals ++ more) occupied animal adj_state =
  threatens σ animals occupied animal adj_state.
Proof.
  intros [_ Htable]. unfold threatens.
  destruct (occupied !! adj_state) as [nm|] eqn:Hocc; [|done].
  rewrite next_named_app.
  destruct (proj2 (next_named_is_Some σ animals nm) (Htable _ _ Hocc)) as [b ->]. done.
Qed.

Lemma is_safe_added σ occupied animal st :
  added_idle animals more σ occupied →
  st ≠ "ACT" →
  is_safe ADJACENT_STATES σ (animals ++ more) occupied animal st =
  is_safe ADJACENT_STATES σ animals occupied animal st.
Proof.
  intros Hidle Hst. unfold is_safe, is_threat_nearby.
  assert (Hscan : ∀ adjacent,
    existsb (threatens σ (animals ++ more) occupied animal) adjacent =
    existsb (threatens σ animals occupied animal) adjacent).
  { intros adjacent. induction adjacent as [|adj_state adjacent IH]; [done|].
    simpl. by rewrite IH, (threatens_added σ occupied animal adj_state Hidle). }
  rewrite next_named_app.
  destruct (next_named σ animals (threat animal)) as [t|] eqn:Hthreat.
  { destruct (same_state _ _); [done|]. destruct (next_to_threat _ _ _); [done|].
    destruct (ADJACENT_STATES !! st); [|done]. simpl. by rewrite Hscan. }
  destruct (next_named σ more (threat animal)) as [t|] eqn:Hadded.
  - pose proof (next_named_added σ occupied _ t Hidle Hthreat Hadded) as Hact.
    simpl. rewrite Hact.
    rewrite bool_decide_eq_false_2 by done.
    rewrite bool_decide_eq_false_2 by apply adjacent_to_ACT.
    destruct (ADJACENT_STATES !! st); [|done]. simpl. by rewrite Hscan.
  - simpl. destruct (ADJACENT_STATES !! st); [|done]. simpl. by rewrite Hscan.
Qed.

Lemma try_states_added σ occupied animal order :
  added_idle animals more σ occupied →
  "ACT" ∉ order →
  try_states ADJACENT_STATES σ (animals ++ more) occupied animal order =
  try_states ADJACENT_STATES σ animals occupied animal order.
Proof.
  intros Hidle. induction order as [|st order IH]; [done|]. intros Hact.
  rewrite !try_states_cons, IH by set_solver.
  rewrite (is_safe_added σ occupied animal st Hidle) by set_solver. done.
Qed.

Lemma relocate_one_added σ occupied r :
  added_idle animals more σ occupied →
  relocate_one ADJACENT_STATES (animals ++ more) σ occupied r =
  relocate_one ADJACENT_STATES animals σ occupied r.
Proof.
  intros Hidle. unfold relocate_one. destruct (σ !! r) as [animal|]; [|done].
  by rewrite (try_states_added σ occupied animal state_order Hidle state_order_not_ACT).
Qed.

Lemma added_idle_step σ occupied r σ' occupied' :
  r ∈ animals →
  added_idle animals more σ occupied →
  relocate_one ADJACENT_STATES animals σ occupied r = Ok (σ', occupied') →
  added_idle animals more σ' occupied'.
Proof.
  intros Hr [Hidle Htable] Hone. split.
  - intros r' a Hr' Hnew Ha. apply (Hidle r' a Hr' Hnew).
    rewrite <- Ha. symmetry. eapply relocate_one_others; [done|]. by intros ->.
  - intros st nm Hst. rewrite (relocate_one_names _ _ _ _ _ _ _ animals Hone).
    apply relocate_one_inv in Hone
      as [(_ & _ & ->) | (animal & Hanimal & [(st' & _ & _ & ->) | (_ & _ & ->)])];
      [by eauto| |by eauto].
    destruct (decide (st' = st)) as [->|Hne].
    + rewrite lookup_insert_eq in Hst. injection Hst as <-.
      by apply (elem_of_names σ animals r).
    + rewrite lookup_insert_ne in Hst by done. eauto.
Qed.

Lemma relocate_loop_added todo σ occupied :
  todo ⊆ animals →
  added_idle animals more σ occupied →
  relocate_loop ADJACENT_STATES (animals ++ more) todo σ occupied =
  relocate_loop ADJACENT_STATES animals todo σ occupied.
Proof.
  revert σ occupied. induction todo as [|r todo IH]; intros σ occupied Hsub Hidle; [done|].
  rewrite !relocate_loop_cons, (relocate_one_added σ occupied r Hidle).
  destruct (relocate_one ADJACENT_STATES animals σ occupied r)
    as [[σ1 occupied1]|key] eqn:Hone; [|done].
  simpl. apply IH; [set_solver|].
  eapply added_idle_step; [|done..]. set_solver.
Qed.

End Appended.

(** Animals added at the end of the list, entering in 'ACT', change
    nothing for the animals before them: the run over the longer list
    leaves every object that is not among the added ones as the run over
    the shorter list does, and keeps every entry of its table. *)
Theorem added_animals_change_nothing (σ : store) (animals more : list nat) :
  (∀ r a, r ∈ more → r ∉ animals → σ !! r = Some a → get_state a = "ACT") →
  ∃ σ1 occupied1 σ2 occupied2,
    relocate_animals σ animals = Ok (σ1, occupied1) ∧
    relocate_animals σ (animals ++ more) = Ok (σ2, occupied2) ∧
    occupied1 ⊆ occupied2 ∧
    ∀ r, r ∉ more → σ2 !! r = σ1 !! r.
Proof.
  intros Hidle.
  destruct (relocate_animals_returns σ animals) as (σ1 & occupied1 & Hrun1).
  destruct (relocate_animals_returns σ (animals ++ more)) as (σ2 & occupied2 & Hrun2).
  exists σ1, occupied1, σ2, occupied2. split_and!; [done..| |].
  all: unfold relocate_animals, relocate_animals_in in Hrun1, Hrun2.
  all: rewrite relocate_loop_app, relocate_loop_added in Hrun2;
    [|done|split; [done|intros st nm Hst; by rewrite lookup_empty in Hst]].
  all: rewrite Hrun1 in Hrun2; simpl in Hrun2.
  - by eapply relocate_loop_occupied.
  - intros r Hr. by eapply relocate_loop_others.
Qed.

Lemma added_animals_change_nothing_witness :
  ∃ σ1 occupied1 σ2 occupied2,
    relocate_animals
      [init "Bilby" "desert" "Quoll"; init "Quoll" "forest" "Dingo"] [0] = Ok (σ1, occupied1) ∧
    relocate_animals
      [init "Bilby" "desert" "Quoll"; init "Quoll" "forest" "Dingo"] ([0] ++ [1])
      = Ok (σ2, occupied2) ∧
    occupied1 ⊆ occupied2 ∧
    ∀ r, r ∉ [1] → σ2 !! r = σ1 !! r.
Proof.
  apply added_animals_change_nothing.
  intros r a Hr _ Ha.
  apply list_elem_of_singleton in Hr as ->. by injection Ha as <-.
Defined.

(** ** The first animal of the list *)

(** With an empty table and every listed animal in 'ACT', every state of
    the order is safe. *)
Lemma is_safe_all_idle σ animals animal st :
  (∀ a, a ∈ objects σ animals → get_state a = "ACT") →
  st ≠ "ACT" →
  is_Some (ADJACENT_STATES !! st) →
  is_safe ADJACENT_STATES σ animals ∅ animal st = Ok true.
Proof.
  intros Hidle Hst [adjacent Hkey]. unfold is_safe, is_threat_nearby. rewrite Hkey.
  assert (Hscan : existsb (threatens σ animals ∅ animal) adjacent = false).
  { apply not_true_iff_false. intros (adj_state & _ & Hyes)%existsb_exists.
    unfold threatens in Hyes. by rewrite lookup_empty in Hyes. }
  destruct (next_named σ animals (threat animal)) as [t|] eqn:Hthreat.
  - apply next_named_Some in Hthreat as [Hin _].
    cbn [same_state next_to_threat]. rewrite (Hidle t Hin).
    rewrite bool_decide_eq_false_2 by done.
    rewrite bool_decide_eq_false_2 by (rewrite Hkey; exact (ACT_not_adjacent _ _ Hkey)).
    simpl. by rewrite Hscan.
  - simpl. by rewrite Hscan.
Qed.

Lemma relocate_first_NSW (σ : store) (r : nat) (rest : list nat) :
  is_Some (σ !! r) →
  r ∉ rest →
  (∀ a, a ∈ objects σ (r :: rest) → get_state a = "ACT") →
  ∃ σ' occupied a,
    relocate_animals σ (r :: rest) = Ok (σ', occupied) ∧
    σ' !! r = Some a ∧ get_state a = "NSW" ∧
    occupied !! "NSW" = Some (name a).
Proof.
  intros [animal Hr] Hfresh Hidle.
  assert (Hsafe : is_safe ADJACENT_STATES σ (r :: rest) ∅ animal "NSW" = Ok true).
  { apply is_safe_all_idle; [done|done|by_evaluation]. }
  assert (Hone : relocate_one ADJACENT_STATES (r :: rest) σ ∅ r
            = Ok (alter (λ a, with_state a "NSW") r σ, {[ "NSW" := name animal ]})).
  { unfold relocate_one. rewrite Hr.
    change state_order with ("NSW" :: ["QLD"; "VIC"; "TAS"; "SA"; "NT"; "WA"]).
    rewrite try_states_take by done. simpl.
    rewrite (list_alter_ext _ (λ a, with_state a "NSW") σ σ r); [done| |done].
    intros a _. by apply set_state_key. }
  destruct (relocate_loop_returns ADJACENT_STATES (r :: rest) rest
              (alter (λ a, with_state a "NSW") r σ) {[ "NSW" := name animal ]}
              state_order_keys) as (σ' & occupied & Hloop).
  exists σ', occupied, (with_state animal "NSW"). split_and!; [| |done|].
  - unfold relocate_animals, relocate_animals_in.
    by rewrite relocate_loop_cons, Hone.
  - rewrite (relocate_loop_others _ _ _ _ _ _ _ _ Hloop Hfresh).
    by rewrite list_lookup_alter_eq, Hr.
  - eapply lookup_weaken; [|by eapply relocate_loop_occupied].
    apply lookup_singleton_eq.
Qed.

(** When the listed animals enter in 'ACT', as [load_dataset] makes them,
    the first animal of the list ends in NSW, whatever the threats are,
    unless the list has its object again further on. *)
Theorem first_animal_in_NSW (σ : store) (r : nat) (rest : list nat) :
  is_Some (σ !! r) →
  r ∉ rest →
  (∀ a, a ∈ objects σ (r :: rest) → get_state a = "ACT") →
  ∃ σ' occupied a,
    relocate_animals σ (r :: rest) = Ok (σ', occupied) ∧
    σ' !! r = Some a ∧ get_state a = "NSW" ∧
    occupied !! "NSW" = Some (name a).
Proof. apply relocate_first_NSW. Qed.

Lemma first_animal_in_NSW_witness :
  ∃ σ' occupied a,
    relocate_animals [init "Echidna" "bush" "Echidna"; init "Quoll" "forest" "Echidna"]
      (0 :: [1]) = Ok (σ', occupied) ∧
    σ' !! 0 = Some a ∧ get_state a = "NSW" ∧
    occupied !! "NSW" = Some (name a).
Proof.
  apply first_animal_in_NSW.
  - by_evaluation.
  - by_evaluation.
  - intros a Ha.
    assert (Hall : Forall (λ a, get_state a = "ACT")
              (objects [init "Echidna" "bush" "Echidna"; init "Quoll" "forest" "Echidna"]
                 (0 :: [1]))) by by_evaluation.
    exact (proj1 (Forall_forall _ _) Hall a Ha).
Defined.

(** ** A sequence of calls of [set_state] *)

Lemma valid_state_key st : valid_state st ↔ is_Some (ADJACENT_STATES !! st) ∨ st = "ACT".
Proof. unfold valid_state. by rewrite elem_of_dom. Qed.

Lemma set_state_valid a st :
  valid_state st → set_state ADJACENT_STATES a st = with_state a st.
Proof.
  intros [Hkey | ->]%valid_state_key; [by apply set_state_key | apply set_state_ACT].
Qed.

Lemma set_state_invalid a st :
  ¬ valid_state st → set_state ADJACENT_STATES a st = a.
Proof.
  intros Hno. apply set_state_other.
  - apply eq_None_not_Some. intros Hkey. apply Hno, valid_state_key. by left.
  - intros ->. apply Hno. by right.
Qed.

Lemma set_states_fields a ss :
  name (set_states a ss) = name a ∧
  habitat (set_states a ss) = habitat a ∧
  threat (set_states a ss) = threat a.
Proof.
  unfold set_states. revert a. induction ss as [|s ss IH]; intros a; [done|].
  simpl. destruct (IH (set_state ADJACENT_STATES a s)) as (-> & -> & ->).
  by rewrite set_state_name, set_state_habitat, set_state_threat.
Qed.

Lemma default_last_cons (x s : string) (l : list string) :
  default x (last (s :: l)) = default s (last l).
Proof.
  revert x s. induction l as [|y l IH]; intros x s; [done|].
  change (last (s :: y :: l)) with (last (y :: l)). by rewrite !(IH _ y).
Qed.

Lemma set_states_state a ss :
  get_state (set_states a ss) = default (get_state a) (last (filter valid_state ss)).
Proof.
  unfold set_states. revert a. induction ss as [|s ss IH]; intros a; [done|].
  simpl. rewrite IH, filter_cons. destruct (decide (valid_state s)) as [Hs|Hs].
  - rewrite set_state_valid by done. simpl.
    by rewrite default_last_cons.
  - by rewrite set_state_invalid.
Qed.

(** After any sequence of calls of [set_state], the animal is in the last
    of the strings that is a key of [ADJACENT_STATES] or 'ACT', and in the
    state it had before when there is none; its name, habitat and threat
    are as before. So an animal made by [__init__] and written by
    [set_state] alone is always in a key of [ADJACENT_STATES] or in
    'ACT'. *)
Theorem set_state_sequence (a : FictionalAnimal) (ss : list string) :
  get_state (set_states a ss) = default (get_state a) (last (filter valid_state ss)) ∧
  name (set_states a ss) = name a ∧
  habitat (set_states a ss) = habitat a ∧
  threat (set_states a ss) = threat a ∧
  ∀ name habitat threat, valid_state (get_state (set_states (init name habitat threat) ss)).
Proof.
  split; [apply set_states_state|].
  destruct (set_states_fields a ss) as (Hn & Hh & Ht). split_and!; [done..|].
  intros n h t. rewrite set_states_state.
  destruct (last (filter valid_state ss)) as [s|] eqn:Hlast; simpl.
  - apply last_Some_elem_of in Hlast. by apply list_elem_of_filter in Hlast as [? _].
  - by right.
Qed.

(** ** Reading the dataset *)

Lemma isspace_not_eq c c' : isspace c = true → isspace c' = false → c ≠ c'.
Proof. intros Hc Hc' ->. congruence. Qed.

Lemma count_char_lstrip c s :
  isspace c = false → count_char c (lstrip s) = count_char c s.
Proof.
  intros Hc. induction s as [|c' s IH]; [done|]. simpl.
  destruct (isspace c') eqn:Hc'; [|done].
  rewrite IH. by rewrite bool_decide_eq_false_2 by by apply isspace_not_eq.
Qed.

Lemma count_char_rstrip c s :
  isspace c = false → count_char c (rstrip s) = count_char c s.
Proof.
  intros Hc. induction s as [|c' s IH]; [done|]. simpl.
  destruct (rstrip s) as [|c'' kept] eqn:Hkept.
  - rewrite <- IH. simpl. destruct (isspace c') eqn:Hc'; simpl; [|lia].
    by rewrite bool_decide_eq_false_2 by by apply isspace_not_eq.
  - by rewrite <- IH.
Qed.

Lemma count_char_strip c s :
  isspace c = false → count_char c (strip s) = count_char c s.
Proof.
  intros Hc. unfold strip. by rewrite count_char_rstrip, count_char_lstrip.
Qed.

Lemma length_split sep s : length (split sep s) = S (count_char sep s).
Proof.
  induction s as [|c s IH]; [done|]. simpl. case_bool_decide; simpl.
  - by rewrite IH.
  - destruct (split sep s) as [|field fields]; simpl in *; lia.
Qed.

Lemma split_fields sep s :
  Forall (λ field, count_char sep field = 0) (split sep s).
Proof.
  induction s as [|c s IH]; [by repeat constructor|]. simpl.
  case_bool_decide as Hc.
  - by constructor.
  - destruct (split sep s) as [|field fields].
    + repeat constructor. simpl. by rewrite bool_decide_eq_false_2.
    + apply Forall_cons in IH as [Hfield Hfields]. constructor; [|done].
      simpl. by rewrite bool_decide_eq_false_2.
Qed.

(** A field without the separator, then the separator. *)
Lemma split_app_sep sep field s :
  count_char sep field = 0 →
  split sep (field +:+ String sep s) = field :: split sep s.
Proof.
  induction field as [|c field IH]; simpl.
  - intros _. by rewrite bool_decide_eq_true_2.
  - case_bool_decide; [done|]. intros Hfield. by rewrite IH.
Qed.

Lemma split_last sep field :
  count_char sep field = 0 → split sep field = [field].
Proof.
  induction field as [|c field IH]; simpl; [done|].
  case_bool_decide; [done|]. intros Hfield. by rewrite IH.
Qed.

Lemma lstrip_id s c : first_char s = Some c → isspace c = false → lstrip s = s.
Proof. destruct s as [|c' s]; [done|]. simpl. by intros [= ->] ->. Qed.

Lemma rstrip_id s c : last_char s = Some c → isspace c = false → rstrip s = s.
Proof.
  induction s as [|c' s IH]; [done|]. simpl. destruct s as [|c'' s].
  - by intros [= ->] ->.
  - intros Hlast Hc. by rewrite (IH Hlast Hc).
Qed.

Lemma rstrip_newline s c :
  last_char s = Some c → isspace c = false → rstrip (s +:+ newline) = s.
Proof.
  induction s as [|c' s IH]; [done|].
  change (rstrip (String c' s +:+ newline)) with
    (match rstrip (s +:+ newline) with
     | EmptyString => if isspace c' then EmptyString else String c' EmptyString
     | kept => String c' kept
     end).
  destruct s as [|c'' s].
  - intros [= ->] Hc. change (rstrip ("" +:+ newline)) with "". by rewrite Hc.
  - intros Hlast Hc. by rewrite (IH Hlast Hc).
Qed.

Lemma first_char_app s t c : first_char s = Some c → first_char (s +:+ t) = Some c.
Proof. by destruct s. Qed.

Lemma last_char_app s c t : last_char (s +:+ String c t) = last_char (String c t).
Proof.
  induction s as [|c' s IH]; [done|]. simpl.
  destruct (s +:+ String c t) eqn:Happ; [|done]. by destruct s.
Qed.

(** What a line gives is decided by its commas. *)
Lemma load_line_Some line a :
  load_line line = Some a ↔
  ∃ name habitat threat,
    split ","%char (strip line) = [name; habitat; threat] ∧
    a = init name habitat threat.
Proof.
  unfold load_line. split.
  - destruct (split _ _) as [|n [|h [|t [|? ?]]]]; try done.
    intros [= <-]. by exists n, h, t.
  - intros (n & h & t & -> & ->). done.
Qed.

(** A line gives an animal exactly when it has two commas, so three
    fields; every other line is skipped. *)
Lemma line_two_commas (line : string) :
  is_Some (load_line line) ↔ count_char ","%char line = 2.
Proof.
  rewrite <- (count_char_strip ","%char line) by done.
  pose proof (length_split ","%char (strip line)) as Hlen.
  unfold load_line. split.
  - destruct (split _ _) as [|n [|h [|t [|? ?]]]]; simpl in *; try by intros [??].
    intros _. lia.
  - intros Hcount. rewrite Hcount in Hlen.
    destruct (split _ _) as [|n [|h [|t [|? ?]]]]; simpl in *; try lia. by eexists.
Qed.

Lemma last_char_is_Some c s : is_Some (last_char (String c s)).
Proof.
  revert c. induction s as [|c' s IH]; intros c; [by eexists|]. apply (IH c').
Qed.

Lemma first_char_fields name rest c :
  (∀ c, first_char name = Some c → isspace c = false) →
  first_char (name +:+ String ","%char rest) = Some c → isspace c = false.
Proof. destruct name as [|c' name]; simpl; [by intros _ [= <-] | eauto]. Qed.

Lemma last_char_fields before threat c :
  (∀ c, last_char threat = Some c → isspace c = false) →
  last_char (before +:+ String ","%char threat) = Some c → isspace c = false.
Proof.
  rewrite last_char_app. destruct threat as [|c' threat]; [by intros _ [= <-]|].
  intros Hthreat. apply Hthreat.
Qed.

Lemma strip_line line c c' :
  first_char line = Some c → isspace c = false →
  last_char line = Some c' → isspace c' = false →
  strip line = line ∧ strip (line +:+ newline) = line.
Proof.
  intros Hfirst Hc Hlast Hc'. unfold strip. split.
  - by rewrite (lstrip_id line c), (rstrip_id line c').
  - rewrite (lstrip_id (line +:+ newline) c) by (by apply first_char_app || done).
    by apply rstrip_newline with c'.
Qed.

Lemma split_three name habitat threat :
  count_char ","%char name = 0 →
  count_char ","%char habitat = 0 →
  count_char ","%char threat = 0 →
  split ","%char (name +:+ "," +:+ habitat +:+ "," +:+ threat) = [name; habitat; threat].
Proof.
  intros Hname Hhabitat Hthreat.
  change ("," +:+ habitat +:+ "," +:+ threat)
    with (String ","%char (habitat +:+ String ","%char threat)).
  by rewrite !split_app_sep, split_last.
Qed.

(** A line in the format of the docstring, [<name>,<habitat>,<threat>],
    with or without its newline, gives the animal of these three fields in
    'ACT', when no field has a comma, the name does not begin with
    whitespace and the threat does not end with it. The fields are kept
    as they are: whitespace inside the line is not removed. *)
Theorem load_line_of_fields (name habitat threat : string) :
  count_char ","%char name = 0 →
  count_char ","%char habitat = 0 →
  count_char ","%char threat = 0 →
  (∀ c, first_char name = Some c → isspace c = false) →
  (∀ c, last_char threat = Some c → isspace c = false) →
  let line := name +:+ "," +:+ habitat +:+ "," +:+ threat in
  load_line (line +:+ newline) = Some (init name habitat threat) ∧
  load_line line = Some (init name habitat threat).
Proof.
  intros Hname Hhabitat Hthreat Hfirst Hlast line.
  assert (Hline : line = name +:+ String ","%char (habitat +:+ String ","%char threat))
    by reflexivity.
  clearbody line. subst line.
  assert (Hsplit : split ","%char
            (name +:+ String ","%char (habitat +:+ String ","%char threat))
            = [name; habitat; threat]) by by rewrite !split_app_sep, split_last.
  destruct (first_char (name +:+ String ","%char (habitat +:+ String ","%char threat)))
    as [c|] eqn:Hc; [|by destruct name].
  destruct (last_char (name +:+ String ","%char (habitat +:+ String ","%char threat)))
    as [c'|] eqn:Hc'.
  2:{ rewrite last_char_app in Hc'.
      by destruct (last_char_is_Some ","%char (habitat +:+ String ","%char threat))
        as [? ?]; congruence. }
  assert (Hspace : isspace c = false)
    by (eapply first_char_fields; [exact Hfirst | exact Hc]).
  assert (Hspace' : isspace c' = false).
  { rewrite last_char_app in Hc'.
    change (String ","%char (habitat +:+ String ","%char threat))
      with (String ","%char habitat +:+ String ","%char threat) in Hc'.
    eapply last_char_fields; [exact Hlast | exact Hc']. }
  destruct (strip_line _ c c' Hc Hspace Hc' Hspace') as [Hstrip Hstrip'].
  unfold load_line. by rewrite Hstrip, Hstrip', Hsplit.
Qed.

Lemma load_line_of_fields_witness :
  let line := "Bilby" +:+ "," +:+ " red desert " +:+ "," +:+ " Quoll" in
  load_line (line +:+ newline) = Some (init "Bilby" " red desert " " Quoll") ∧
  load_line line = Some (init "Bilby" " red desert " " Quoll").
Proof.
  apply (load_line_of_fields "Bilby" " red desert " " Quoll").
  - reflexivity.
  - reflexivity.
  - reflexivity.
  - intros c [= <-]. reflexivity.
  - intros c [= <-]. reflexivity.
Defined.

Lemma load_dataset_cons line lines :
  load_dataset (Some (line :: lines)) =
  match load_line line with
  | Some a => a :: load_dataset (Some lines)
  | None => load_dataset (Some lines)
  end.
Proof. reflexivity. Qed.

Lemma load_dataset_spec (file : option (list string)) :
  length (load_dataset file) =
    length (filter (λ line, count_char ","%char line = 2) (default [] file)) ∧
  Forall (λ a,
      get_state a = "ACT" ∧
      count_char ","%char (name a) = 0 ∧
      count_char ","%char (habitat a) = 0 ∧
      count_char ","%char (threat a) = 0)
    (load_dataset file).
Proof.
  destruct file as [lines|]; [|by split]. simpl default.
  induction lines as [|line lines [IHlen IHall]]; [by split|].
  rewrite load_dataset_cons, filter_cons.
  pose proof (line_two_commas line) as Hiff.
  destruct (load_line line) as [a|] eqn:Hline.
  - rewrite decide_True by (apply Hiff; by eexists).
    split; [cbn [length]; f_equal; exact IHlen|].
    constructor; [|done].
    apply load_line_Some in Hline as (n & h & t & Hsplit & ->).
    pose proof (split_fields ","%char (strip line)) as Hfields.
    rewrite Hsplit in Hfields.
    apply Forall_cons in Hfields as [Hn Hfields].
    apply Forall_cons in Hfields as [Hh Hfields].
    apply Forall_cons in Hfields as [Ht _]. done.
  - rewrite decide_False; [done|]. intros Htwo%Hiff. by destruct Htwo.
Qed.

(** [load_dataset] gives one animal for each line with exactly two
    commas, in the order of the lines, and none when the file is missing.
    Every animal it gives is in 'ACT', and none of its fields has a
    comma. *)
Theorem load_dataset_animals (file : option (list string)) :
  length (load_dataset file) =
    length (filter (λ line, count_char ","%char line = 2) (default [] file)) ∧
  Forall (λ a,
      get_state a = "ACT" ∧
      count_char ","%char (name a) = 0 ∧
      count_char ","%char (habitat a) = 0 ∧
      count_char ","%char (threat a) = 0)
    (load_dataset file).
Proof. apply load_dataset_spec. Qed.

(** A line gives an animal exactly when it has two commas, so three
    fields; every other line is skipped. *)
Theorem line_loaded_iff_two_commas (line : string) :
  is_Some (load_line line) ↔ count_char ","%char line = 2.
Proof. apply line_two_commas. Qed.

Lemma join_split sep s : join sep (split sep s) = s.
Proof.
  induction s as [|c s IH]; [done|]. simpl. case_bool_decide as Hc.
  - subst c. pose proof (length_split sep s) as Hlen.
    destruct (split sep s) as [|field fields]; [done|]. simpl in *. by rewrite IH.
  - pose proof (length_split sep s) as Hlen.
    destruct (split sep s) as [|field fields]; [done|].
    destruct fields as [|field' fields]; simpl in *; by rewrite <- IH.
Qed.

Lemma lstrip_first s c : first_char (lstrip s) = Some c → isspace c = false.
Proof.
  induction s as [|c' s IH]; [done|]. simpl.
  destruct (isspace c') eqn:Hc'; [done|]. simpl. by intros [= <-].
Qed.

Lemma first_char_rstrip s c : first_char (rstrip s) = Some c → first_char s = Some c.
Proof.
  destruct s as [|c' s]; [done|]. simpl.
  destruct (rstrip s); [by destruct (isspace c')|done].
Qed.

Lemma rstrip_last s c : last_char (rstrip s) = Some c → isspace c = false.
Proof.
  induction s as [|c' s IH]; [done|]. simpl.
  destruct (rstrip s) as [|c'' kept] eqn:Hkept.
  - destruct (isspace c') eqn:Hc'; [done|]. simpl. by intros [= <-].
  - intros Hlast. by apply IH.
Qed.

Lemma last_char_cons c c' s : last_char (String c (String c' s)) = last_char (String c' s).
Proof. reflexivity. Qed.

(** An animal that a line gives is the stripped line cut at its two
    commas: joined by commas, its name, habitat and threat are the line
    without the whitespace at its two ends. So the name does not begin
    with whitespace and the threat does not end with it, and the animal is
    in 'ACT'. *)
Theorem loaded_animal_is_stripped_line (line : string) (a : FictionalAnimal) :
  load_line line = Some a →
  strip line = name a +:+ "," +:+ habitat a +:+ "," +:+ threat a ∧
  get_state a = "ACT" ∧
  (∀ c, first_char (name a) = Some c → isspace c = false) ∧
  (∀ c, last_char (threat a) = Some c → isspace c = false).
Proof.
  intros (n & h & t & Hsplit & ->)%load_line_Some. simpl.
  assert (Hjoin : strip line = n +:+ String ","%char (h +:+ String ","%char t)).
  { by rewrite <- (join_split ","%char (strip line)), Hsplit. }
  split_and!; [done..| |].
  - intros c Hc. apply (lstrip_first line), first_char_rstrip.
    fold (strip line). rewrite Hjoin. by apply first_char_app.
  - intros c Hc. apply (rstrip_last (lstrip line)). fold (strip line).
    rewrite Hjoin, last_char_app.
    change (String ","%char (h +:+ String ","%char t))
      with (String ","%char h +:+ String ","%char t).
    rewrite last_char_app. by destruct t.
Qed.

Lemma loaded_animal_is_stripped_line_witness :
  let line := "  Bilby,red desert, Quoll " +:+ newline in
  let a := init "Bilby" "red desert" " Quoll" in
  strip line = name a +:+ "," +:+ habitat a +:+ "," +:+ threat a ∧
  get_state a = "ACT" ∧
  (∀ c, first_char (name a) = Some c → isspace c = false) ∧
  (∀ c, last_char (threat a) = Some c → isspace c = false).
Proof.
  intros line a.
  apply (loaded_animal_is_stripped_line line a).
  vm_compute. reflexivity.
Defined.

(** ** From the file to the summary *)

Lemma objects_seq (σ : store) (k m : nat) :
  (k + m ≤ length σ)%nat → objects σ (seq k m) = take m (drop k σ).
Proof.
  revert k. induction m as [|m IH]; intros k Hlen; [done|].
  destruct (lookup_lt_is_Some_2 σ k) as [a Ha]; [lia|].
  cbn [seq]. rewrite objects_cons, Ha, IH by lia.
  by rewrite (drop_S σ a k Ha).
Qed.

Lemma objects_all σ : objects σ (seq 0 (length σ)) = σ.
Proof. rewrite objects_seq by lia. rewrite drop_0. by apply take_ge. Qed.

Lemma relocate_loop_names graph animals todo σ occupied σ' occupied' refs :
  relocate_loop graph animals todo σ occupied = Ok (σ', occupied') →
  name <$> objects σ' refs = name <$> objects σ refs.
Proof.
  revert σ occupied. induction todo as [|r todo IH]; intros σ occupied.
  - by intros [= <- <-].
  - intros (σ1 & occupied1 & Hone & Hloop)%relocate_loop_cons_inv.
    rewrite (IH _ _ Hloop). by eapply relocate_one_names.
Qed.

Lemma length_filter_summary (l : list FictionalAnimal) :
  length (filter (λ p : string * string, p.2 ≠ "ACT")
            ((λ a, (name a, get_state a)) <$> l)) =
  length (filter (λ a, get_state a ≠ "ACT") l).
Proof.
  induction l as [|a l IH]; [done|].
  rewrite fmap_cons, !filter_cons. simpl.
  destruct (decide (get_state a ≠ "ACT")); simpl; by rewrite IH.
Qed.

Lemma settled_valid occupied a : settled occupied a → valid_state (get_state a).
Proof.
  intros [Hact | [Hin _]]; [by right | left].
  apply elem_of_dom. exact (proj1 (Forall_forall _ _) state_order_keys _ Hin).
Qed.


(** ** The details that [__str__] prints *)

Lemma count_char_app c s t :
  count_char c (s +:+ t) = count_char c s + count_char c t.
Proof. induction s as [|c' s IH]; [done|]. simpl. rewrite IH. lia. Qed.

Lemma to_str_split (a : FictionalAnimal) :
  no_line_feed a →
  split "010"%char (to_str a) =
    [name a; "   Habitat : " +:+ habitat a; "   Threat  : " +:+ threat a;
     "   State   : " +:+ state a].
Proof.
  intros (Hname & Hhabitat & Hthreat & Hstate). unfold to_str.
  change (name a +:+ newline +:+ "   Habitat : " +:+ habitat a +:+ newline +:+
          "   Threat  : " +:+ threat a +:+ newline +:+ "   State   : " +:+ state a)
    with (name a +:+ String "010"%char
            (("   Habitat : " +:+ habitat a) +:+ String "010"%char
               (("   Threat  : " +:+ threat a) +:+ String "010"%char
                  ("   State   : " +:+ state a)))).
  rewrite split_app_sep by done.
  rewrite split_app_sep by (by rewrite count_char_app, Hhabitat).
  rewrite split_app_sep by (by rewrite count_char_app, Hthreat).
  rewrite split_last by (by rewrite count_char_app, Hstate). done.
Qed.

(** When no field of an animal has a line feed, the string of [__str__]
    is the four lines of the docstring: the name and the three labelled
    fields. Two such animals with the same string are the same animal. *)
Theorem to_str_lines (a b : FictionalAnimal) :
  no_line_feed a →
  no_line_feed b →
  split "010"%char (to_str a) =
    [name a; "   Habitat : " +:+ habitat a; "   Threat  : " +:+ threat a;
     "   State   : " +:+ state a] ∧
  (to_str a = to_str b → a = b).
Proof.
  intros Ha Hb. split; [by apply to_str_split|]. intros Heq.
  pose proof (to_str_split a Ha) as Hlines.
  rewrite Heq, (to_str_split b Hb) in Hlines.
  injection Hlines as Hn Hh Ht Hs.
  apply (inj (String.append _)) in Hh, Ht, Hs.
  destruct a, b. simpl in *. congruence.
Qed.

Lemma to_str_lines_witness :
  let a := init "Bilby" "red desert" "Quoll" in
  let b := mkAnimal "Bilby" "red desert" "Quoll" "TAS" in
  split "010"%char (to_str a) =
    [name a; "   Habitat : " +:+ habitat a; "   Threat  : " +:+ threat a;
     "   State   : " +:+ state a] ∧
  (to_str a = to_str b → a = b).
Proof.
  intros a b. apply (to_str_lines a b); by_evaluation.
Defined.
